(** * Frequency-set audio generator: a shallow embedding of [app.py]

    The engine of [app.py] ([fix_frequency], [parse_frequency_set],
    [generate_tone], [merge_audio] and the numeric part of
    [generate_audio]) is translated function by function.

    Number model.  Python floats are idealised as exact rationals ([Q]):
    every float literal denotes its exact value, arithmetic is exact, and
    there is neither rounding nor overflow nor a non-finite value.
    [np.pi] is the exact value of the binary64 constant.  [np.sin], whose
    values depend on the platform's mathematical library, is a parameter
    of the development.  What the idealisation leaves out: the literals
    [inf], [infinity] and [nan], decimal literals beyond the binary64
    range (which [float()] reads as infinity, on which the halving loop
    never ends and [int()] raises [OverflowError]), and the rounding of
    every operation to binary64.  Only the cast to 16-bit integers is
    also given on samples that may be infinite or NaN ([sample]).

    Strings are sequences of code points below 256.

    Control model.  Python exceptions are values of [exn] carried by the
    [outcome] monad; the only loop that may fail to terminate (the
    halving loop of [fix_frequency]) is driven by a fuel counter and
    yields [OutOfFuel] when the counter is exhausted. *)

From Stdlib Require Import ZArith QArith Qround Qabs Qminmax Qpower Lia Lqa Bool Ascii String List.
Import ListNotations.

Local Open Scope Q_scope.

(* ================================================================== *)
(** ** Outcomes of Python computations *)

Inductive exn : Type :=
| ValueError
| IndexError
| TypeError.

Inductive outcome (A : Type) : Type :=
| Done (a : A)
| Raise (e : exn)
| OutOfFuel.

Arguments Done {A} a.
Arguments Raise {A} e.
Arguments OutOfFuel {A}.

Definition bind {A B : Type} (m : outcome A) (k : A -> outcome B) : outcome B :=
  match m with
  | Done a => k a
  | Raise e => Raise e
  | OutOfFuel => OutOfFuel
  end.

Notation "'let*' x ':=' m 'in' k" := (bind m (fun x => k))
  (at level 10, x name, m at level 100, k at level 200).

(** A [for] loop that appends the value of [f x] for every [x], left to
    right, and stops at the first element whose body does not finish. *)
Fixpoint for_each {A B : Type} (f : A -> outcome B) (xs : list A) : outcome (list B) :=
  match xs with
  | [] => Done []
  | x :: rest =>
      let* y := f x in
      let* ys := for_each f rest in
      Done (y :: ys)
  end.

Definition raises {A : Type} (m : outcome A) : bool :=
  match m with Raise _ => true | _ => false end.

(* ================================================================== *)
(** ** Float comparisons on the rational model *)

Definition Qgtb (a b : Q) : bool :=
  match a ?= b with Gt => true | _ => false end.

Definition Qltb (a b : Q) : bool :=
  match a ?= b with Lt => true | _ => false end.

(* ================================================================== *)
(** ** Waveforms *)

(** The closed enumeration of the specification; the code itself
    dispatches on the waveform's name. *)
Inductive WaveformKind : Type :=
| sine | lilly | square_wave | pulse | sawtooth_wave | reverse_sawtooth | triangle.

Definition waveform_name (w : WaveformKind) : string :=
  match w with
  | sine => "sine"
  | lilly => "lilly"
  | square_wave => "square"
  | pulse => "pulse"
  | sawtooth_wave => "sawtooth"
  | reverse_sawtooth => "reverse_sawtooth"
  | triangle => "triangle"
  end%string.

(** Python's [waveform in [...]]. *)
Fixpoint str_in (s : string) (l : list string) : bool :=
  match l with
  | [] => false
  | x :: rest => if String.eqb s x then true else str_in s rest
  end.

(* ================================================================== *)
(** ** [fix_frequency] *)

(** Lines 28-37: the ceiling for the waveform. *)
Definition max_freq_of (waveform : string) (sample_rate : Q) : Q :=
  if str_in waveform ["sine"; "lilly"]%string then sample_rate / 20
  else if String.eqb waveform "triangle" then sample_rate / 8
  else if str_in waveform ["pulse"; "sawtooth"; "reverse_sawtooth"]%string then sample_rate / 4
  else if String.eqb waveform "square" then sample_rate / 2
  else sample_rate / 20.

(** Lines 38-39: [while freq > max_freq: freq /= 2.0]. *)
Fixpoint halve_while (fuel : nat) (freq max_freq : Q) : outcome Q :=
  if Qgtb freq max_freq then
    match fuel with
    | O => OutOfFuel
    | S fuel' => halve_while fuel' (freq / 2) max_freq
    end
  else Done freq.

(** The value after [k] trips through the loop body. *)
Fixpoint halved (k : nat) (f : Q) : Q :=
  match k with
  | O => f
  | S k' => halved k' (f / 2)
  end.

Definition fix_frequency (fuel : nat) (freq : Q) (waveform : string) (sample_rate : Q)
  : outcome Q :=
  halve_while fuel freq (max_freq_of waveform sample_rate).

(** The table of the specification (section 4.2). *)
Definition nyquist_fraction (w : WaveformKind) : Q :=
  match w with
  | sine | lilly => 1 # 20
  | triangle => 1 # 8
  | pulse | sawtooth_wave | reverse_sawtooth => 1 # 4
  | square_wave => 1 # 2
  end.

(* ================================================================== *)
(** ** Strings *)

(** The characters [str.strip()] removes, those of [str.isspace()]
    below 256: tab, line feed, vertical tab, form feed, carriage return,
    the four separators 28-31, the space, NEL (133) and the no-break
    space (160). *)
Definition is_space (c : ascii) : bool :=
  let n := nat_of_ascii c in
  ((9 <=? n) && (n <=? 13) || (28 <=? n) && (n <=? 32)
   || (n =? 133) || (n =? 160))%nat.

(** The white space of the C locale, which is what [float()] skips
    around a literal: tab to carriage return, and the space. *)
Definition is_ascii_space (c : ascii) : bool :=
  let n := nat_of_ascii c in
  ((9 <=? n) && (n <=? 13) || (n =? 32))%nat.

Fixpoint lstrip_by (space : ascii -> bool) (s : string) : string :=
  match s with
  | String c rest => if space c then lstrip_by space rest else s
  | EmptyString => EmptyString
  end.

(** Removes trailing white space: a character is kept when something
    that is kept follows it, or when it is not white space itself. *)
Fixpoint rstrip_by (space : ascii -> bool) (s : string) : string :=
  match s with
  | EmptyString => EmptyString
  | String c rest =>
      match rstrip_by space rest with
      | EmptyString => if space c then EmptyString else String c EmptyString
      | kept => String c kept
      end
  end.

Definition strip_by (space : ascii -> bool) (s : string) : string :=
  rstrip_by space (lstrip_by space s).

Definition lstrip : string -> string := lstrip_by is_space.
Definition rstrip : string -> string := rstrip_by is_space.

(** [s.strip()]. *)
Definition strip (s : string) : string := strip_by is_space s.

(** Before it reads a literal, [float()] turns the white space above
    127 into spaces; the separators 28-31 are left as they are, and make
    the literal invalid. *)
Fixpoint spaces_to_ascii (s : string) : string :=
  match s with
  | EmptyString => EmptyString
  | String c rest =>
      String (if ((nat_of_ascii c =? 133) || (nat_of_ascii c =? 160))%nat
              then " "%char else c)
             (spaces_to_ascii rest)
  end.

(** [s.split(sep)] for a one-character separator: the pieces between
    the separators, empty pieces included; always at least one piece. *)
Fixpoint split (sep : ascii) (s : string) : list string :=
  match s with
  | EmptyString => [EmptyString]
  | String c rest =>
      if Ascii.eqb c sep then EmptyString :: split sep rest
      else match split sep rest with
           | piece :: pieces => String c piece :: pieces
           | [] => [String c EmptyString]
           end
  end.

(** [sep in s]. *)
Fixpoint contains (sep : ascii) (s : string) : bool :=
  match s with
  | EmptyString => false
  | String c rest => Ascii.eqb c sep || contains sep rest
  end.

(** Tuple unpacking [a, b = pieces]: any other number of pieces raises
    [ValueError]. *)
Definition unpack2 (pieces : list string) : outcome (string * string) :=
  match pieces with
  | [a; b] => Done (a, b)
  | _ => Raise ValueError
  end.

(* ------------------------------------------------------------------ *)
(** *** [float(str)] on decimal literals

    [sign? (digits ('.' digits?)? | '.' digits) ([eE] sign? digits)?]
    with optional surrounding white space; a single underscore may
    separate two digits.  The literals [inf], [infinity] and [nan] denote
    no rational and are not read by this model, and a literal beyond the
    binary64 range is read as its exact value. *)

Definition digit_of (c : ascii) : option Z :=
  let n := nat_of_ascii c in
  if ((48 <=? n) && (n <=? 57))%nat then Some (Z.of_nat (n - 48)) else None.

(** Reads [digit+ (_ digit+)*] continuing an accumulator: [after_digit]
    tells whether the previous character was a digit (an underscore is
    legal only there, and only before another digit).  Returns the
    value, the number of digits read and the unread rest. *)
Fixpoint read_digits (s : string) (acc : Z) (count : nat) (after_digit : bool)
  : option (Z * nat * string) :=
  match s with
  | EmptyString => Some (acc, count, s)
  | String c rest =>
      match digit_of c with
      | Some d => read_digits rest (10 * acc + d)%Z (S count) true
      | None =>
          if Ascii.eqb c "_" then
            if after_digit then
              match rest with
              | String c' _ =>
                  match digit_of c' with
                  | Some _ => read_digits rest acc count false
                  | None => None
                  end
              | EmptyString => None
              end
            else None
          else Some (acc, count, s)
      end
  end.

Definition read_sign (s : string) : bool * string :=
  match s with
  | String "-" rest => (true, rest)
  | String "+" rest => (false, rest)
  | _ => (false, s)
  end.

(** The optional exponent part; the whole string must be consumed. *)
Definition read_exponent (s : string) : option Z :=
  match s with
  | EmptyString => Some 0%Z
  | String c rest =>
      if Ascii.eqb c "e" || Ascii.eqb c "E" then
        let (neg, rest') := read_sign rest in
        match read_digits rest' 0 0 false with
        | Some (e, S _, EmptyString) => Some (if neg then (- e)%Z else e)
        | _ => None
        end
      else None
  end.

Definition pow10 (e : Z) : Q :=
  match e with
  | Z0 => 1
  | Zpos p => inject_Z (10 ^ Zpos p)
  | Zneg p => 1 # Z.to_pos (10 ^ Zpos p)
  end.

Definition float_of_string (s : string) : outcome Q :=
  let (neg, body) := read_sign (strip_by is_ascii_space (spaces_to_ascii s)) in
  match read_digits body 0 0 false with
  | None => Raise ValueError
  | Some (ipart, ni, rest) =>
      let after_point :=
        match rest with
        | String "." rest' =>
            match read_digits rest' ipart 0 false with
            | Some (m, nf, rest'') => Some (m, nf, rest'')
            | None => None
            end
        | _ => Some (ipart, O, rest)
        end in
      match after_point with
      | None => Raise ValueError
      | Some (mant, nf, rest') =>
          if (ni + nf =? 0)%nat then Raise ValueError
          else
            match read_exponent rest' with
            | None => Raise ValueError
            | Some e =>
                let v := Qred (inject_Z mant * pow10 (e - Z.of_nat nf)) in
                Done (if neg then Qred (- v) else v)
            end
      end
  end.

(* ================================================================== *)
(** ** [parse_frequency_set] *)

Record segment : Type := mkSegment {
  seg_start : Q;
  seg_end : Q;
  seg_duration : Q
}.

(** The body of the loop (lines 57-75) on one comma-separated piece:
    [None] is the [continue] of an empty piece. *)
Definition parse_part (part : string) (default_dwell : Q) : outcome (option segment) :=
  let part := strip part in
  match part with
  | EmptyString => Done None
  | _ =>
      let* fd :=
        (if contains "=" part then
           let* p := unpack2 (split "=" part) in
           let* dwell := float_of_string (snd p) in
           Done (fst p, dwell)
         else Done (part, default_dwell)) in
      let freq_part := fst fd in
      let dwell := snd fd in
      let* se :=
        (if contains "-" freq_part then
           let* p := unpack2 (split "-" freq_part) in
           let* st := float_of_string (fst p) in
           let* en := float_of_string (snd p) in
           Done (st, en)
         else
           let* st := float_of_string freq_part in
           Done (st, st)) in
      Done (Some (mkSegment (fst se) (snd se) dwell))
  end.

Fixpoint parse_parts (parts : list string) (default_dwell : Q) (segments : list segment)
  : outcome (list segment) :=
  match parts with
  | [] => Done segments
  | part :: rest =>
      let* r := parse_part part default_dwell in
      match r with
      | None => parse_parts rest default_dwell segments
      | Some seg => parse_parts rest default_dwell (segments ++ [seg])
      end
  end.

Definition parse_frequency_set (freq_str : string) (default_dwell : Q)
  : outcome (list segment) :=
  parse_parts (split "," freq_str) default_dwell [].

(** The pieces the specification counts: the comma-separated tokens
    that are not empty once trimmed. *)
Definition is_blank (tok : string) : bool :=
  match strip tok with EmptyString => true | _ => false end.

Definition nonempty_tokens (freq_str : string) : list string :=
  filter (fun tok => negb (is_blank tok)) (split "," freq_str).

(* ================================================================== *)
(** ** The numpy and scipy operations the engine calls *)

(** [int(x)]: truncation toward zero. *)
Definition int_of_float (x : Q) : Z := Z.quot (Qnum x) (Zpos (Qden x)).

(** [np.pi], the binary64 constant 0x400921FB54442D18. *)
Definition np_pi : Q := 884279719003555 # 281474976710656.

Definition range (num : Z) : list Z := map Z.of_nat (seq 0 (Z.to_nat num)).

(** [np.linspace(start, stop, num, endpoint=False)]: a negative [num]
    raises; otherwise [arange(num) * step + start] with
    [step = (stop - start) / num]. *)
Definition np_linspace (start stop : Q) (num : Z) : outcome (list Q) :=
  if (num <? 0)%Z then Raise ValueError
  else
    let step := (stop - start) / inject_Z num in
    Done (map (fun i => inject_Z i * step + start) (range num)).

(** [np.mod(a, b)]: the remainder with the sign of the divisor. *)
Definition np_mod (a b : Q) : Q := a - inject_Z (Qfloor (a / b)) * b.

(** [scipy.signal.square(t, duty)] for a duty cycle within [0, 1] (the
    call sites pass 0.25, 0.5 and 0.05): 1 while
    [mod(t, 2 * pi) < duty * 2 * pi], and -1 otherwise. *)
Definition signal_square (t duty : Q) : Q :=
  let tmod := np_mod t (2 * np_pi) in
  if Qltb tmod (duty * 2 * np_pi) then 1 else -1.

(** [scipy.signal.sawtooth(t, width)] for a width within [0, 1]. *)
Definition signal_sawtooth (t width : Q) : Q :=
  let tmod := np_mod t (2 * np_pi) in
  if Qltb tmod (width * 2 * np_pi) then tmod / (np_pi * width) - 1
  else (np_pi * (width + 1) - tmod) / (np_pi * (1 - width)).

(** [np.sum(rows, axis=0)] on a non-empty list of one-dimensional
    arrays: rows of unequal length do not form an array. *)
Definition add_rows (a b : list Q) : list Q :=
  map (fun p => fst p + snd p) (combine a b).

Definition np_sum_axis0 (rows : list (list Q)) : outcome (list Q) :=
  match rows with
  | [] => Done []
  | first :: rest =>
      if forallb (fun r => (List.length r =? List.length first)%nat) rest
      then Done (fold_left add_rows rest first)
      else Raise ValueError
  end.

(** [np.max]: an empty array has no maximum. *)
Definition np_max (a : list Q) : outcome Q :=
  match a with
  | [] => Raise ValueError
  | x :: rest => Done (fold_left Qmax rest x)
  end.

Definition np_abs (a : list Q) : list Q := map Qabs a.

(** [np.concatenate]: needs at least one array. *)
Definition np_concatenate {A : Type} (arrays : list (list A)) : outcome (list A) :=
  match arrays with
  | [] => Raise ValueError
  | _ => Done (concat arrays)
  end.

(** [x.astype(np.int16)] on one sample: the fraction is dropped (toward
    zero).  A value outside the 16-bit range is left to the C cast; on
    x86-64 the conversion goes through a 32-bit integer, of which the low
    16 bits are kept, and a value that does not fit 32 bits gives the
    pattern 0x80000000, whose low 16 bits are 0. *)
Definition wrap_int16 (z : Z) : Z := ((z + 32768) mod 65536 - 32768)%Z.

Definition astype_int16 (x : Q) : Z :=
  let z := int_of_float x in
  if ((-2147483648 <=? z) && (z <=? 2147483647))%Z then wrap_int16 z else 0%Z.

(** A sample as an array may hold it: a finite value, an infinity or a
    NaN. *)
Inductive sample : Type :=
| Finite (q : Q)
| Infinite (negative : bool)
| NaN.

(** [a * 32767] on one sample: infinities and NaN stay what they are. *)
Definition scale_sample (x : sample) : sample :=
  match x with
  | Finite q => Finite (q * 32767)
  | other => other
  end.

(** The cast of a sample: numpy signals an invalid value as a warning
    and goes on; an infinity or a NaN gives 0x80000000 as above. *)
Definition astype_int16_sample (x : sample) : Z :=
  match x with
  | Finite q => astype_int16 q
  | _ => 0%Z
  end.

(** [(a * 32767).astype(np.int16)] on an array of such samples: no
    exception is raised on the way. *)
Definition to_int16_samples (a : list sample) : outcome (list Z) :=
  Done (map astype_int16_sample (map scale_sample a)).

(** The largest finite binary64 value. *)
Definition float_max : Q := inject_Z ((2 ^ 53 - 1) * 2 ^ 971).

(* ================================================================== *)
(** ** [generate_tone], [merge_audio], [generate_audio] *)

Section Engine.

(** [np.sin] on floats. *)
Variable np_sin : Q -> Q.

(** Line 86. *)
Definition inst_phase (start_freq end_freq duration t : Q) : Q :=
  2 * np_pi * (start_freq * t + 0.5 * (end_freq - start_freq) * (t ^ 2) / duration).

(** Lines 88-107: the shape applied to one phase value. *)
Definition tone_shape (waveform : string) (ph : Q) : Q :=
  if String.eqb waveform "sine" then np_sin ph
  else if String.eqb waveform "lilly" then signal_square ph 0.25
  else if String.eqb waveform "square" then signal_square ph 0.5
  else if String.eqb waveform "pulse" then (signal_square ph 0.05 + 1) / 2
  else if String.eqb waveform "sawtooth" then signal_sawtooth ph 1
  else if String.eqb waveform "reverse_sawtooth" then signal_sawtooth ph 0
  else if String.eqb waveform "triangle" then signal_sawtooth ph 0.5
  else np_sin ph.

Definition generate_tone (start_freq end_freq duration sample_rate : Q)
    (waveform : string) (amplitude : Q) : outcome (list Q) :=
  let* t := np_linspace 0 duration (int_of_float (duration * sample_rate)) in
  let phase := map (inst_phase start_freq end_freq duration) t in
  let tone := map (tone_shape waveform) phase in
  Done (map (fun x => amplitude * x) tone).

(** Lines 110-122; [None] is Python's [None]. *)
Definition merge_audio (audio_list : list (list Q)) : outcome (option (list Q)) :=
  match audio_list with
  | [] => Done None
  | _ =>
      let* mixed := np_sum_axis0 audio_list in
      let* max_val := np_max (np_abs mixed) in
      Done (Some (if Qgtb max_val 0
                  then map (fun x => x / max_val) mixed
                  else mixed))
  end.

(** [(a * 32767).astype(np.int16)], lines 154 and 159-160. *)
Definition to_int16 (a : list Q) : list Z :=
  map astype_int16 (map (fun x => x * 32767) a).

(** Lines 137-143. *)
Definition fix_segment (fuel : nat) (waveform : string) (sample_rate : Q)
    (seg : segment) : outcome segment :=
  let* fixed_start := fix_frequency fuel (seg_start seg) waveform sample_rate in
  let* fixed_end := fix_frequency fuel (seg_end seg) waveform sample_rate in
  Done (mkSegment fixed_start fixed_end (seg_duration seg)).

(** Lines 147-154. *)
Definition merged_audio (fixed_segments : list segment) (waveform : string)
    (sample_rate : Q) : outcome (list Z) :=
  match fixed_segments with
  | [] => Raise IndexError
  | first :: _ =>
      let common_duration := seg_duration first in
      let* merged_tones :=
        for_each (fun seg => generate_tone (seg_start seg) (seg_end seg)
                               common_duration sample_rate waveform 1)
                 fixed_segments in
      let* merged := merge_audio merged_tones in
      match merged with
      | None => Raise TypeError
      | Some m => Done (to_int16 m)
      end
  end.

(** Lines 156-161. *)
Definition sequential_audio (fixed_segments : list segment) (waveform : string)
    (sample_rate : Q) : outcome (list Z) :=
  let* audio_segments :=
    for_each (fun seg =>
                let* tone := generate_tone (seg_start seg) (seg_end seg)
                               (seg_duration seg) sample_rate waveform 1 in
                Done (to_int16 tone))
             fixed_segments in
  np_concatenate audio_segments.

(** [generate_audio] up to [final_audio]; writing the file is left to
    the caller.  [audio_format] and [output] do not reach the buffer. *)
Definition generate_audio (fuel : nat) (frequencies waveform : string)
    (sample_rate dwell : Q) (merge_frequencies : bool) : outcome (list Z) :=
  let* segments := parse_frequency_set frequencies dwell in
  let* fixed_segments := for_each (fix_segment fuel waveform sample_rate) segments in
  if merge_frequencies
  then merged_audio fixed_segments waveform sample_rate
  else sequential_audio fixed_segments waveform sample_rate.

(** The order of the specification for Sequential mode: synthesize
    every tone, concatenate the float buffers, quantize once. *)
Definition compose_then_quantize (fixed_segments : list segment) (waveform : string)
    (sample_rate : Q) : outcome (list Z) :=
  let* tones :=
    for_each (fun seg => generate_tone (seg_start seg) (seg_end seg)
                           (seg_duration seg) sample_rate waveform 1)
             fixed_segments in
  let* buffer := np_concatenate tones in
  Done (to_int16 buffer).

End Engine.

(** The global peak absolute value of a buffer, [np.max(np.abs(a))]
    (0 is a placeholder for the empty buffer, which has none). *)
Definition peak_abs (a : list Q) : Q :=
  match np_max (np_abs a) with
  | Done m => m
  | _ => 0
  end.

(* ================================================================== *)
(** ** The quantizer of the specification (section 4.5) *)

(** [round]: to the nearest integer, a tie going to the even one. *)
Definition round_half_even (x : Q) : Z :=
  let lo := Qfloor x in
  match Qcompare (x - inject_Z lo) (1 # 2) with
  | Lt => lo
  | Gt => (lo + 1)%Z
  | Eq => if Z.even lo then lo else (lo + 1)%Z
  end.

Definition clamp_int16 (z : Z) : Z := Z.max (-32768) (Z.min 32767 z).

Definition quantize_spec (a : list Q) : list Z :=
  map (fun s => clamp_int16 (round_half_even (s * 32767))) a.

(* ================================================================== *)
(** ** Measures used to state properties *)

(** [s.count(sep)] for a one-character [sep]. *)
Fixpoint count_char (sep : ascii) (s : string) : nat :=
  match s with
  | EmptyString => O
  | String c rest => ((if Ascii.eqb c sep then 1 else 0) + count_char sep rest)%nat
  end.

(** The sample count of a segment, [int(duration * sample_rate)], as a
    length. *)
Definition sample_count (duration sample_rate : Q) : nat :=
  Z.to_nat (int_of_float (duration * sample_rate)).

(* ================================================================== *)
(** * Properties *)

Lemma Qgtb_true (a b : Q) : Qgtb a b = true <-> b < a.
Proof.
  unfold Qgtb. rewrite Qgt_alt. destruct (a ?= b); split; congruence.
Qed.

Lemma Qgtb_false (a b : Q) : Qgtb a b = false <-> a <= b.
Proof.
  unfold Qgtb. rewrite Qle_alt. destruct (a ?= b); split; congruence.
Qed.

Lemma max_freq_of_table (w : WaveformKind) (r : Q) :
  max_freq_of (waveform_name w) r == r * nyquist_fraction w.
Proof.
  destruct w; unfold max_freq_of; simpl; field.
Qed.

Lemma halve_while_fixed (fuel : nat) (f m : Q) :
  f <= m -> halve_while fuel f m = Done f.
Proof.
  intros H. apply Qgtb_false in H. destruct fuel; simpl; rewrite H; reflexivity.
Qed.

Lemma halve_while_result_below (fuel : nat) :
  forall f m v, halve_while fuel f m = Done v -> v <= m.
Proof.
  induction fuel as [|n IH]; intros f m v; simpl;
    destruct (Qgtb f m) eqn:E; try discriminate.
  - intros [= <-]. now apply Qgtb_false.
  - apply IH.
  - intros [= <-]. now apply Qgtb_false.
Qed.



(* ------------------------------------------------------------------ *)
(** ** The halving loop *)

Lemma halve_while_never_raises (fuel : nat) :
  forall f m, raises (halve_while fuel f m) = false.
Proof.
  induction fuel as [|n IH]; intros f m; simpl; destruct (Qgtb f m); auto.
Qed.

Lemma pow2_pos (k : nat) : 0 < 2 ^ Z.of_nat k.
Proof. apply Qpower_0_lt. reflexivity. Qed.

Lemma pow2_succ (k : nat) : 2 ^ Z.of_nat (S k) == 2 * 2 ^ Z.of_nat k.
Proof.
  rewrite Nat2Z.inj_succ, <- Z.add_1_l, Qpower_plus by discriminate. reflexivity.
Qed.

Lemma halving_shift (f : Q) (j : nat) :
  f / 2 ^ Z.of_nat (S j) == f / 2 / 2 ^ Z.of_nat j.
Proof.
  rewrite pow2_succ. pose proof (pow2_pos j) as Hp.
  field. intro E. rewrite E in Hp. now apply Qlt_irrefl in Hp.
Qed.

Lemma halved_pow2 (k : nat) : forall f, halved k f == f / 2 ^ Z.of_nat k.
Proof.
  induction k as [|k IH]; intros f.
  - simpl. field.
  - cbn [halved]. rewrite IH. symmetry. apply halving_shift.
Qed.

Lemma halving_zero (f : Q) : f / 2 ^ Z.of_nat 0 == f.
Proof. simpl. field. Qed.

Lemma half_mult (f : Q) : f / 2 == f * (1 # 2).
Proof. field. Qed.

Lemma halve_while_run (k : nat) :
  forall f m,
    (forall j, (j < k)%nat -> m < f / 2 ^ Z.of_nat j) ->
    f / 2 ^ Z.of_nat k <= m ->
    forall fuel, (k <= fuel)%nat -> halve_while fuel f m = Done (halved k f).
Proof.
  induction k as [|k IH]; intros f m Hbefore Hat fuel Hfuel.
  - simpl. apply halve_while_fixed. now rewrite halving_zero in Hat.
  - destruct fuel as [|fuel]; [lia|].
    assert (H0 : m < f).
    { specialize (Hbefore O ltac:(lia)). now rewrite halving_zero in Hbefore. }
    apply Qgtb_true in H0. cbn [halve_while halved]. rewrite H0.
    apply IH; [| | lia].
    + intros j Hj. rewrite <- halving_shift. apply Hbefore. lia.
    + now rewrite <- halving_shift.
Qed.

(** Below [m * 2^n] the loop needs at most [n] trips, and there is a
    least number of trips that brings [f] under the ceiling. *)
Lemma least_halving (n : nat) :
  forall f m,
    f <= m * 2 ^ Z.of_nat n ->
    exists k, (k <= n)%nat /\ f / 2 ^ Z.of_nat k <= m /\
              forall j, (j < k)%nat -> m < f / 2 ^ Z.of_nat j.
Proof.
  induction n as [|n IH]; intros f m Hf.
  - exists O. split; [lia|]. split; [|intros j Hj; lia].
    rewrite halving_zero. change (2 ^ Z.of_nat 0) with 1 in Hf. lra.
  - destruct (Qlt_le_dec m f) as [Hgt|Hle].
    + destruct (IH (f / 2) m) as (k & Hk & Hat & Hbefore).
      { rewrite pow2_succ in Hf. rewrite half_mult. lra. }
      exists (S k). split; [lia|]. split.
      * now rewrite halving_shift.
      * intros [|j] Hj.
        -- now rewrite halving_zero.
        -- rewrite halving_shift. apply Hbefore. lia.
    + exists O. split; [lia|]. split; [|intros j Hj; lia].
      now rewrite halving_zero.
Qed.

Lemma nat_below_pow2 (n : nat) : inject_Z (Z.of_nat n) <= 2 ^ Z.of_nat n.
Proof.
  induction n as [|n IH].
  - simpl. discriminate.
  - rewrite pow2_succ, Nat2Z.inj_succ. unfold Z.succ. rewrite inject_Z_plus.
    pose proof (pow2_pos n) as Hp.
    destruct n as [|n'].
    + vm_compute. discriminate.
    + assert (H1 : inject_Z 1 <= inject_Z (Z.of_nat (S n'))).
      { rewrite <- Zle_Qle. lia. }
      set (x := inject_Z (Z.of_nat (S n'))) in *.
      set (y := 2 ^ Z.of_nat (S n')) in *.
      change (inject_Z 1) with 1 in *. lra.
Qed.

Lemma halving_bound (f m : Q) :
  0 < m -> exists n, f <= m * 2 ^ Z.of_nat n.
Proof.
  intros Hm.
  exists (Z.to_nat (Qceiling (f / m))).
  pose proof (nat_below_pow2 (Z.to_nat (Qceiling (f / m)))) as Hn.
  pose proof (Qle_ceiling (f / m)) as Hc.
  assert (Hz : inject_Z (Qceiling (f / m)) <= inject_Z (Z.of_nat (Z.to_nat (Qceiling (f / m))))).
  { rewrite <- Zle_Qle. lia. }
  assert (Hfm : f == f / m * m) by (field; lra).
  rewrite Hfm at 1.
  rewrite (Qmult_comm m). apply Qmult_le_compat_r; lra.
Qed.

Lemma halve_while_terminates (f m : Q) :
  0 < m ->
  exists k,
    (forall fuel, (k <= fuel)%nat -> halve_while fuel f m = Done (halved k f)) /\
    f / 2 ^ Z.of_nat k <= m /\
    (forall j, (j < k)%nat -> m < f / 2 ^ Z.of_nat j).
Proof.
  intros Hm.
  destruct (halving_bound f m Hm) as [n Hn].
  destruct (least_halving n f m Hn) as (k & _ & Hat & Hbefore).
  exists k. split; [|split]; auto.
  apply halve_while_run; auto.
Qed.

Lemma halve_while_idempotent (fuel : nat) (f m v : Q) :
  halve_while fuel f m = Done v -> forall fuel', halve_while fuel' v m = Done v.
Proof.
  intros H fuel'. apply halve_while_fixed. eapply halve_while_result_below; eauto.
Qed.

Lemma max_freq_of_pos (w : string) (r : Q) : 0 < r -> 0 < max_freq_of w r.
Proof.
  intros Hr. unfold max_freq_of.
  repeat match goal with |- context [if ?b then _ else _] => destruct b end;
    apply Qlt_shift_div_l; lra.
Qed.

(** C2. For a positive frequency [f], a waveform [w] of the enumeration
    and a positive sample rate [r], the halving loop of [fix_frequency]
    stops: with [k] the least number of halvings that brings [f] to at
    most [r * fraction(w)] (the table of the specification), every run
    with at least [k] units of fuel returns [f / 2^k]; the result does
    not exceed [r * fraction(w)], and no run raises. *)
Theorem fix_frequency_least_halving (f r : Q) (w : WaveformKind) :
  0 < f -> 0 < r ->
  exists (k : nat) (v : Q),
    (forall fuel, (k <= fuel)%nat ->
       fix_frequency fuel f (waveform_name w) r = Done v) /\
    v == f / 2 ^ Z.of_nat k /\
    f / 2 ^ Z.of_nat k <= r * nyquist_fraction w /\
    (forall j, (j < k)%nat -> r * nyquist_fraction w < f / 2 ^ Z.of_nat j) /\
    v <= r * nyquist_fraction w /\
    (forall fuel, raises (fix_frequency fuel f (waveform_name w) r) = false).
Proof.
  intros Hf Hr.
  assert (Hm : 0 < max_freq_of (waveform_name w) r) by now apply max_freq_of_pos.
  destruct (halve_while_terminates f _ Hm) as (k & Hrun & Hat & Hbefore).
  exists k, (halved k f).
  split; [exact Hrun|].
  split; [apply halved_pow2|].
  split; [now rewrite <- max_freq_of_table|].
  split; [intros j Hj; rewrite <- max_freq_of_table; now apply Hbefore|].
  split; [now rewrite <- max_freq_of_table, halved_pow2|].
  intros fuel. apply halve_while_never_raises.
Qed.

Lemma fix_frequency_least_halving_witness :
  exists (k : nat) (v : Q),
    (forall fuel, (k <= fuel)%nat ->
       fix_frequency fuel 10000 (waveform_name sine) 48000 = Done v) /\
    v == 10000 / 2 ^ Z.of_nat k /\
    10000 / 2 ^ Z.of_nat k <= 48000 * nyquist_fraction sine /\
    (forall j, (j < k)%nat -> 48000 * nyquist_fraction sine < 10000 / 2 ^ Z.of_nat j) /\
    v <= 48000 * nyquist_fraction sine /\
    (forall fuel, raises (fix_frequency fuel 10000 (waveform_name sine) 48000) = false).
Proof.
  apply (fix_frequency_least_halving 10000 48000 sine); reflexivity.
Defined.

(** C8. Limiting is idempotent: whenever [fix_frequency] returns [v],
    limiting [v] again returns [v] (with any fuel); a frequency at or
    below the ceiling is returned as it is, in particular [f <= 2400]
    for sine at 48000 Hz; and for positive [f] and [r] the first limiting
    does return. *)
Theorem fix_frequency_idempotent (f r : Q) (w : string) :
  (forall fuel v, fix_frequency fuel f w r = Done v ->
     forall fuel', fix_frequency fuel' v w r = Done v) /\
  (f <= max_freq_of w r -> forall fuel, fix_frequency fuel f w r = Done f) /\
  (f <= 2400 -> forall fuel, fix_frequency fuel f "sine" 48000 = Done f) /\
  (0 < f -> 0 < r ->
     exists fuel v, fix_frequency fuel f w r = Done v /\
                    forall fuel', fix_frequency fuel' v w r = Done v).
Proof.
  unfold fix_frequency. split; [|split; [|split]].
  - intros fuel v H fuel'. eapply halve_while_idempotent; eauto.
  - intros H fuel. now apply halve_while_fixed.
  - intros H fuel. apply halve_while_fixed.
    change (max_freq_of "sine" 48000) with (48000 / 20).
    apply Qle_shift_div_l; lra.
  - intros Hf Hr.
    destruct (halve_while_terminates f (max_freq_of w r) (max_freq_of_pos w r Hr))
      as (k & Hrun & _).
    exists k, (halved k f). split.
    + apply Hrun. lia.
    + intros fuel'. eapply halve_while_idempotent. apply (Hrun k). lia.
Qed.

Lemma fix_frequency_idempotent_witness :
  fix_frequency 5 10000 "sine" 48000 = Done (10000 / 2 / 2 / 2) /\
  fix_frequency 0 (10000 / 2 / 2 / 2) "sine" 48000 = Done (10000 / 2 / 2 / 2) /\
  fix_frequency 0 2400 "sine" 48000 = Done 2400.
Proof.
  split; [reflexivity|]. split.
  - apply (proj1 (fix_frequency_idempotent 10000 48000 "sine") 5%nat).
    reflexivity.
  - apply (proj1 (proj2 (proj2 (fix_frequency_idempotent 2400 48000 "sine")))).
    discriminate.
Defined.

(* ------------------------------------------------------------------ *)
(** ** The parser *)

Lemma bind_done {A B : Type} (m : outcome A) (k : A -> outcome B) (b : B) :
  bind m k = Done b -> exists a, m = Done a /\ k a = Done b.
Proof.
  destruct m as [a| |]; simpl; try discriminate. intros H. now exists a.
Qed.

(** A piece is skipped exactly when it is blank; any other piece that
    is read gives one segment. *)
Lemma parse_part_done (part : string) (d : Q) (r : option segment) :
  parse_part part d = Done r ->
  match r with
  | None => is_blank part = true
  | Some _ => is_blank part = false
  end.
Proof.
  unfold parse_part, is_blank.
  destruct (strip part) as [|c rest].
  - intros [= <-]. reflexivity.
  - intros H.
    apply bind_done in H as (fd & _ & H).
    apply bind_done in H as (se & _ & H).
    injection H as <-. reflexivity.
Qed.

Lemma parse_parts_length (parts : list string) (d : Q) :
  forall acc segs,
    parse_parts parts d acc = Done segs ->
    length segs =
    (length acc + length (filter (fun tok => negb (is_blank tok)) parts))%nat.
Proof.
  induction parts as [|part rest IH]; intros acc segs H; simpl in H.
  - injection H as <-. simpl. lia.
  - apply bind_done in H as (r & Hr & H).
    apply parse_part_done in Hr.
    destruct r as [seg|]; simpl; rewrite Hr; simpl.
    + apply IH in H. rewrite H, length_app. simpl. lia.
    + now apply IH in H.
Qed.

(** C3. The four shapes of the grammar give the stated segments, and
    whenever a specification string is read without error the number of
    segments is the number of comma-separated tokens that are not empty
    after trimming. *)
Theorem parse_frequency_set_shapes_and_count :
  parse_frequency_set "144" 180 = Done [mkSegment 144 144 180] /\
  parse_frequency_set "144=360" 10 = Done [mkSegment 144 144 360] /\
  parse_frequency_set "160-180" 10 = Done [mkSegment 160 180 10] /\
  parse_frequency_set "520-555=60" 10 = Done [mkSegment 520 555 60] /\
  (forall freq_str default_dwell segments,
     parse_frequency_set freq_str default_dwell = Done segments ->
     length segments = length (nonempty_tokens freq_str)).
Proof.
  repeat (split; [reflexivity|]).
  intros freq_str d segs H. unfold parse_frequency_set in H.
  apply parse_parts_length in H. exact H.
Qed.

Lemma parse_frequency_set_shapes_and_count_witness :
  length [mkSegment 144 144 180; mkSegment 160 180 180; mkSegment 520 555 60]
  = length (nonempty_tokens "144, ,160-180,,520-555=60").
Proof.
  apply (proj2 (proj2 (proj2 (proj2 parse_frequency_set_shapes_and_count)))
           "144, ,160-180,,520-555=60"%string 180).
  reflexivity.
Defined.

(* ------------------------------------------------------------------ *)
(** ** Truncation and the time grid *)

Lemma int_of_float_nonneg (x : Q) : 0 <= x -> int_of_float x = Qfloor x.
Proof.
  destruct x as [n d]. unfold Qle, int_of_float, Qfloor. simpl.
  intros H. apply Z.quot_div_nonneg; lia.
Qed.

Lemma int_of_float_nonpos (x : Q) : x <= 0 -> int_of_float x = Qceiling x.
Proof.
  destruct x as [n d]. unfold Qle, int_of_float, Qceiling, Qfloor. simpl.
  intros H.
  replace n with (- (- n))%Z at 1 by lia.
  rewrite Z.quot_opp_l by lia. f_equal. apply Z.quot_div_nonneg; lia.
Qed.

Lemma range_length (num : Z) : length (range num) = Z.to_nat num.
Proof. unfold range. now rewrite length_map, length_seq. Qed.

Lemma range_nth (num : Z) (i : nat) :
  (i < Z.to_nat num)%nat -> nth i (range num) 0%Z = Z.of_nat i.
Proof.
  intros H. unfold range.
  change 0%Z with (Z.of_nat 0). rewrite map_nth, seq_nth by exact H. reflexivity.
Qed.

Lemma map_nth_in {A B : Type} (f : A -> B) (l : list A) (i : nat) (da : A) (db : B) :
  (i < length l)%nat -> nth i (map f l) db = f (nth i l da).
Proof.
  intros H. rewrite (nth_indep _ db (f da)) by now rewrite length_map.
  apply map_nth.
Qed.

Section ToneFacts.

Variable np_sin : Q -> Q.

(** The buffer [generate_tone] builds when the sample count is not
    negative. *)
Lemma generate_tone_unfold (s e d sr amp : Q) (w : string) :
  (0 <= int_of_float (d * sr))%Z ->
  generate_tone np_sin s e d sr w amp =
  Done (map (fun i =>
               amp * tone_shape np_sin w
                       (inst_phase s e d
                          (inject_Z i * ((d - 0) / inject_Z (int_of_float (d * sr))) + 0)))
            (range (int_of_float (d * sr)))).
Proof.
  intros HN. unfold generate_tone, np_linspace.
  destruct (Z.ltb_spec (int_of_float (d * sr)) 0) as [Hlt|_]; [lia|].
  simpl. now rewrite !map_map.
Qed.

Lemma generate_tone_negative (s e d sr amp : Q) (w : string) :
  (int_of_float (d * sr) < 0)%Z ->
  generate_tone np_sin s e d sr w amp = Raise ValueError.
Proof.
  intros HN. unfold generate_tone, np_linspace.
  destruct (Z.ltb_spec (int_of_float (d * sr)) 0) as [_|Hge]; [reflexivity|lia].
Qed.

End ToneFacts.

Lemma inst_phase_fixed_tone (s e d t : Q) :
  s == e -> inst_phase s e d t == 2 * np_pi * (s * t).
Proof.
  intros H. unfold inst_phase, Qdiv. rewrite <- H. ring.
Qed.

Lemma grid_is_sample_clock (d sr : Q) (N : Z) (i : Z) :
  (0 < N)%Z -> d * sr == inject_Z N ->
  inject_Z i * (d / inject_Z N) == inject_Z i / sr.
Proof.
  intros HN H.
  assert (Hn : 0 < inject_Z N).
  { change 0 with (inject_Z 0). now rewrite <- Zlt_Qlt. }
  assert (Hsr : ~ sr == 0).
  { intros E. rewrite E in H. rewrite Qmult_0_r in H. rewrite <- H in Hn.
    now apply Qlt_irrefl in Hn. }
  assert (Hd : d == inject_Z N / sr).
  { rewrite <- H. field. exact Hsr. }
  rewrite Hd. field. split; [exact Hsr | lra].
Qed.

(** C1 (amended). When [int(duration * sample_rate)] is not negative,
    [generate_tone] returns a buffer with that many samples (the floor
    of the product when the product is not negative).  The sample at
    index [i] is [amplitude] times the waveform's shape at the phase
    [2 pi (start t + 0.5 (end - start) t^2 / duration)], where [t] is
    the [i]-th point of [np.linspace]'s grid, [i * duration / N]; this is
    [i / sample_rate] whenever [duration * sample_rate] is the integer
    [N].  For a fixed tone the phase is [2 pi start t]. *)
Theorem generate_tone_samples (np_sin : Q -> Q) (s e d sr amp : Q) (w : string) :
  (0 <= int_of_float (d * sr))%Z ->
  exists buf,
    generate_tone np_sin s e d sr w amp = Done buf /\
    length buf = Z.to_nat (int_of_float (d * sr)) /\
    (0 <= d * sr -> int_of_float (d * sr) = Qfloor (d * sr)) /\
    (forall i, (i < length buf)%nat ->
       exists t,
         t == inject_Z (Z.of_nat i) * (d / inject_Z (int_of_float (d * sr))) /\
         (d * sr == inject_Z (int_of_float (d * sr)) ->
          t == inject_Z (Z.of_nat i) / sr) /\
         nth i buf 0 = amp * tone_shape np_sin w (inst_phase s e d t) /\
         (s == e -> inst_phase s e d t == 2 * np_pi * (s * t))).
Proof.
  intros HN. eexists. split; [now apply generate_tone_unfold|].
  rewrite length_map, range_length.
  split; [reflexivity|]. split; [apply int_of_float_nonneg|].
  intros i Hi.
  set (N := int_of_float (d * sr)) in *.
  exists (inject_Z (Z.of_nat i) * ((d - 0) / inject_Z N) + 0).
  assert (Hgrid : inject_Z (Z.of_nat i) * ((d - 0) / inject_Z N) + 0
                  == inject_Z (Z.of_nat i) * (d / inject_Z N)).
  { unfold Qdiv. ring. }
  split; [exact Hgrid|]. split; [|split].
  - intros Hint. rewrite Hgrid. apply grid_is_sample_clock; [lia | exact Hint].
  - rewrite (map_nth_in _ _ _ 0%Z) by now rewrite range_length.
    now rewrite range_nth.
  - apply inst_phase_fixed_tone.
Qed.

Lemma generate_tone_samples_witness :
  exists buf,
    generate_tone (fun x => x) 1000 1000 (1 # 12000) 48000 "sawtooth" 1 = Done buf /\
    length buf = 4%nat.
Proof.
  destruct (generate_tone_samples (fun x => x) 1000 1000 (1 # 12000) 48000 1 "sawtooth")
    as (buf & Hbuf & Hlen & _).
  - vm_compute. discriminate.
  - exists buf. split; [exact Hbuf | exact Hlen].
Defined.

(** C1 as stated fails: at 48000 Hz a segment of 0.0001 s has 4 samples
    spaced 1/40000 s apart, so the sample at index 1 of a 1000 Hz rising
    ramp is not the shape's value at the phase of [t = 1/48000]. *)
Lemma generate_tone_sample_clock_counterexample :
  exists buf,
    (forall np_sin,
       generate_tone np_sin 1000 1000 (1 # 10000) 48000 "sawtooth" 1 = Done buf) /\
    length buf = Z.to_nat (Qfloor ((1 # 10000) * 48000)) /\
    (forall np_sin,
       ~ nth 1 buf 0 ==
         1 * tone_shape np_sin "sawtooth" (inst_phase 1000 1000 (1 # 10000) (1 / 48000))).
Proof.
  eexists. split; [|split].
  - intros np_sin. vm_compute. reflexivity.
  - reflexivity.
  - intros np_sin. vm_compute. discriminate.
Qed.

(** C6 (amended). [generate_tone] raises exactly when
    [int(duration * sample_rate)], taken toward zero, is negative; when
    it is zero an empty buffer is returned, and when it is positive a
    non-empty one. *)
Theorem generate_tone_sample_count (np_sin : Q -> Q) (s e d sr amp : Q) (w : string) :
  ((int_of_float (d * sr) < 0)%Z ->
     generate_tone np_sin s e d sr w amp = Raise ValueError) /\
  (int_of_float (d * sr) = 0%Z ->
     generate_tone np_sin s e d sr w amp = Done []) /\
  ((0 < int_of_float (d * sr))%Z ->
     exists buf, generate_tone np_sin s e d sr w amp = Done buf /\ buf <> []).
Proof.
  split; [apply generate_tone_negative|]. split.
  - intros H0. rewrite generate_tone_unfold by lia. now rewrite H0.
  - intros Hpos. eexists. split; [apply generate_tone_unfold; lia|].
    intros E. apply (f_equal (@length Q)) in E.
    rewrite length_map, range_length in E. simpl in E. lia.
Qed.

Lemma generate_tone_sample_count_witness :
  generate_tone (fun x => x) 144 144 (-1) 48000 "sine" 1 = Raise ValueError /\
  generate_tone (fun x => x) 144 144 0 48000 "sine" 1 = Done [].
Proof.
  split.
  - apply (proj1 (generate_tone_sample_count (fun x => x) 144 144 (-1) 48000 1 "sine")).
    reflexivity.
  - apply (proj1 (proj2 (generate_tone_sample_count (fun x => x) 144 144 0 48000 1 "sine"))).
    reflexivity.
Defined.

(** C6 as stated fails: with a sample count of zero (duration 0, or a
    product between -1 and 0 whose floor is -1) nothing is raised and an
    empty tone buffer is produced. *)
Lemma generate_tone_zero_count_counterexample :
  Qfloor (0 * 48000) = 0%Z /\
  (forall np_sin, generate_tone np_sin 144 144 0 48000 "sine" 1 = Done []) /\
  Qfloor ((-1 # 96000) * 48000) = (-1)%Z /\
  (forall np_sin, generate_tone np_sin 144 144 (-1 # 96000) 48000 "sine" 1 = Done []).
Proof.
  repeat split.
Qed.

(* ------------------------------------------------------------------ *)
(** ** The cast to 16-bit integers *)

Lemma wrap_int16_in_range (z : Z) :
  (-32768 <= z <= 32767)%Z -> wrap_int16 z = z.
Proof.
  intros H. unfold wrap_int16. rewrite Z.mod_small; lia.
Qed.

Lemma astype_int16_representable (x : Q) :
  (-32768 <= int_of_float x <= 32767)%Z -> astype_int16 x = int_of_float x.
Proof.
  intros H. unfold astype_int16.
  destruct (Z.leb_spec (-2147483648) (int_of_float x)); [|lia].
  destruct (Z.leb_spec (int_of_float x) 2147483647); [|lia].
  cbn [andb]. now apply wrap_int16_in_range.
Qed.

Lemma int_of_float_between (x : Q) (lo hi : Z) :
  (lo <= 0 <= hi)%Z -> inject_Z lo <= x <= inject_Z hi ->
  (lo <= int_of_float x <= hi)%Z.
Proof.
  intros Hz [Hlo Hhi].
  destruct (Qlt_le_dec x 0) as [Hneg|Hpos].
  - rewrite int_of_float_nonpos by lra.
    apply Qceiling_resp_le in Hlo. rewrite Qceiling_Z in Hlo.
    assert (H0 : x <= inject_Z 0) by (change (inject_Z 0) with 0; lra).
    apply Qceiling_resp_le in H0. rewrite Qceiling_Z in H0. lia.
  - rewrite int_of_float_nonneg by exact Hpos.
    apply Qfloor_resp_le in Hhi. rewrite Qfloor_Z in Hhi.
    assert (H0 : inject_Z 0 <= x) by (change (inject_Z 0) with 0; lra).
    apply Qfloor_resp_le in H0. rewrite Qfloor_Z in H0. lia.
Qed.

(** Inside the 16-bit range the cast only drops the fraction. *)
Lemma astype_int16_in_range (x : Q) :
  -32768 <= x <= 32767 -> astype_int16 x = int_of_float x.
Proof.
  intros H. apply astype_int16_representable.
  apply (int_of_float_between x (-32768) 32767); [lia | exact H].
Qed.

Lemma to_int16_length (a : list Q) : length (to_int16 a) = length a.
Proof. unfold to_int16. now rewrite !length_map. Qed.

Lemma to_int16_nth_error (a : list Q) (i : nat) (s : Q) :
  nth_error a i = Some s ->
  nth_error (to_int16 a) i = Some (astype_int16 (s * 32767)).
Proof.
  intros H. unfold to_int16. rewrite map_map.
  now rewrite nth_error_map, H.
Qed.

Lemma int_of_float_inside (x : Q) (lo hi : Z) :
  (lo < 0 < hi)%Z -> inject_Z lo < x < inject_Z hi ->
  (lo < int_of_float x < hi)%Z.
Proof.
  intros Hz [Hlo Hhi].
  destruct (Qlt_le_dec x 0) as [Hneg|Hpos].
  - rewrite int_of_float_nonpos by lra.
    pose proof (Qle_ceiling x) as Hc.
    assert (H0 : x <= inject_Z 0) by (change (inject_Z 0) with 0; lra).
    apply Qceiling_resp_le in H0. rewrite Qceiling_Z in H0.
    assert (Hlt : inject_Z lo < inject_Z (Qceiling x)) by lra.
    rewrite <- Zlt_Qlt in Hlt. lia.
  - rewrite int_of_float_nonneg by exact Hpos.
    pose proof (Qfloor_le x) as Hf.
    assert (H0 : inject_Z 0 <= x) by (change (inject_Z 0) with 0; lra).
    apply Qfloor_resp_le in H0. rewrite Qfloor_Z in H0.
    assert (Hlt : inject_Z (Qfloor x) < inject_Z hi) by lra.
    rewrite <- Zlt_Qlt in Hlt. lia.
Qed.

(** Inside the range the cast drops the fraction and a clamp would
    change nothing. *)
Lemma to_int16_inside (a : list Q) (i : nat) (s : Q) :
  nth_error a i = Some s -> -32768 < s * 32767 < 32768 ->
  exists z,
    nth_error (to_int16 a) i = Some z /\
    z = int_of_float (s * 32767) /\
    (0 <= s -> z = Qfloor (s * 32767)) /\
    (s <= 0 -> z = Qceiling (s * 32767)) /\
    clamp_int16 z = z /\
    (-32767 <= z <= 32767)%Z.
Proof.
  intros Hi [Hlo Hhi].
  exists (astype_int16 (s * 32767)).
  split; [now apply to_int16_nth_error|].
  assert (Hin : (-32768 < int_of_float (s * 32767) < 32768)%Z).
  { apply int_of_float_inside; [lia|].
    change (inject_Z (-32768)) with (-32768).
    change (inject_Z 32768) with 32768. split; assumption. }
  assert (Hcast : astype_int16 (s * 32767) = int_of_float (s * 32767)).
  { apply astype_int16_representable. lia. }
  rewrite Hcast. split; [reflexivity|]. split; [|split; [|split]].
  - intros H0. apply int_of_float_nonneg. lra.
  - intros H0. apply int_of_float_nonpos. lra.
  - unfold clamp_int16. lia.
  - lia.
Qed.

Lemma to_int16_samples_finite (a : list Q) :
  to_int16_samples (map Finite a) = Done (to_int16 a).
Proof.
  unfold to_int16_samples, to_int16. now rewrite !map_map.
Qed.

(** C5 (amended). The cast to 16-bit integers raises nothing, whatever
    the buffer holds, infinities and NaN included, and gives one integer
    per sample; on a buffer of finite samples it is [to_int16].  A finite
    sample [s] whose scaled value [s * 32767] lies strictly between
    -32768 and 32768 (every sample of [-1, 1], and those slightly
    outside) becomes [s * 32767] with its fraction dropped, toward zero:
    the floor for [s >= 0], the ceiling for [s <= 0], not the nearest
    integer; the result lies in [-32767, 32767], so that clamping it to
    the 16-bit range changes nothing. *)
Theorem to_int16_truncates (buffer : list sample) (a : list Q) :
  (exists ints,
     to_int16_samples buffer = Done ints /\ length ints = length buffer) /\
  to_int16_samples (map Finite a) = Done (to_int16 a) /\
  length (to_int16 a) = length a /\
  (forall i s,
     nth_error a i = Some s -> -32768 < s * 32767 < 32768 ->
     exists z,
       nth_error (to_int16 a) i = Some z /\
       z = int_of_float (s * 32767) /\
       (0 <= s -> z = Qfloor (s * 32767)) /\
       (s <= 0 -> z = Qceiling (s * 32767)) /\
       clamp_int16 z = z /\
       (-32767 <= z <= 32767)%Z).
Proof.
  split; [|split; [|split]].
  - eexists. split; [reflexivity|]. now rewrite !length_map.
  - apply to_int16_samples_finite.
  - apply to_int16_length.
  - intros i s. apply to_int16_inside.
Qed.

Lemma to_int16_truncates_witness :
  exists z,
    nth_error (to_int16 [1; -7 # 10]) 1 = Some z /\
    z = Qceiling ((-7 # 10) * 32767).
Proof.
  destruct (proj2 (proj2 (proj2 (to_int16_truncates [NaN] [1; -7 # 10]))) 1%nat (-7 # 10))
    as (z & Hz & _ & _ & Hceil & _).
  - reflexivity.
  - split; reflexivity.
  - exists z. split; [exact Hz | apply Hceil; discriminate].
Defined.

(** C5 as stated fails twice: 0.7 * 32767 = 22936.9 is cast to 22936,
    where rounding gives 22937; and a buffer that holds a NaN and an
    infinity is cast without any exception. *)
Lemma to_int16_rounding_counterexample :
  to_int16 [7 # 10] = [22936%Z] /\
  quantize_spec [7 # 10] = [22937%Z] /\
  to_int16 [7 # 10] <> quantize_spec [7 # 10] /\
  raises (to_int16_samples [NaN; Infinite false; Finite (7 # 10)]) = false /\
  (exists ints,
     to_int16_samples [NaN; Infinite false; Finite (7 # 10)] = Done ints /\
     nth_error ints 2 = Some 22936%Z).
Proof.
  split; [reflexivity|]. split; [reflexivity|]. split; [discriminate|].
  split; [reflexivity|]. eexists. split; reflexivity.
Qed.

(* ------------------------------------------------------------------ *)
(** ** The pulse waveform *)

Lemma signal_square_values (t duty : Q) :
  signal_square t duty = 1 \/ signal_square t duty = -1.
Proof.
  unfold signal_square. destruct (Qltb _ _); auto.
Qed.

Lemma pulse_shape_values (np_sin : Q -> Q) (ph : Q) :
  tone_shape np_sin "pulse" ph == 0 \/ tone_shape np_sin "pulse" ph == 1.
Proof.
  change (tone_shape np_sin "pulse" ph) with ((signal_square ph 0.05 + 1) / 2).
  destruct (signal_square_values ph 0.05) as [-> | ->]; [right | left]; reflexivity.
Qed.

Lemma generate_tone_forall (np_sin : Q -> Q) (s e d sr amp : Q) (w : string)
    (P : Q -> Prop) (buf : list Q) :
  (forall ph, P (amp * tone_shape np_sin w ph)) ->
  generate_tone np_sin s e d sr w amp = Done buf ->
  Forall P buf.
Proof.
  intros HP H.
  destruct (Z.ltb_spec (int_of_float (d * sr)) 0) as [Hlt|Hge].
  - rewrite generate_tone_negative in H by exact Hlt. discriminate.
  - rewrite generate_tone_unfold in H by exact Hge. injection H as <-.
    apply Forall_forall. intros x Hx. apply in_map_iff in Hx as (i & <- & _).
    apply HP.
Qed.

(* ------------------------------------------------------------------ *)
(** ** Mixing *)

Lemma fold_left_Qmax_spec (rest : list Q) :
  forall x,
    (forall y, In y (x :: rest) -> y <= fold_left Qmax rest x) /\
    (exists y, In y (x :: rest) /\ y == fold_left Qmax rest x).
Proof.
  induction rest as [|r rest IH]; intros x.
  - split.
    + intros y [<-|[]]. simpl. apply Qle_refl.
    + exists x. split; [now left | reflexivity].
  - destruct (IH (Qmax x r)) as [Hub (y & Hy & Ey)]. cbn [fold_left]. split.
    + intros z [<-|[<-|Hz]].
      * eapply Qle_trans; [apply Q.le_max_l | apply Hub; now left].
      * eapply Qle_trans; [apply Q.le_max_r | apply Hub; now left].
      * apply Hub. now right.
    + destruct Hy as [<-|Hy].
      * destruct (Q.max_spec x r) as [[_ E]|[_ E]].
        -- exists r. split; [right; now left|].
           transitivity (Qmax x r); [symmetry; exact E | exact Ey].
        -- exists x. split; [now left|].
           transitivity (Qmax x r); [symmetry; exact E | exact Ey].
      * exists y. split; [right; now right | exact Ey].
Qed.

Lemma peak_abs_spec (a : list Q) :
  a <> [] ->
  (forall x, In x a -> Qabs x <= peak_abs a) /\
  (exists x, In x a /\ Qabs x == peak_abs a).
Proof.
  destruct a as [|x0 rest]; [congruence|]. intros _.
  unfold peak_abs, np_abs. cbn [map np_max].
  destruct (fold_left_Qmax_spec (map Qabs rest) (Qabs x0)) as [Hub (y & Hy & Ey)].
  change (Qabs x0 :: map Qabs rest) with (map Qabs (x0 :: rest)) in *.
  split.
  - intros x Hx. apply Hub. now apply in_map.
  - apply in_map_iff in Hy as (x & <- & Hx). now exists x.
Qed.

Lemma peak_abs_nonneg (a : list Q) : 0 <= peak_abs a.
Proof.
  destruct a as [|x0 rest]; [discriminate|].
  destruct (peak_abs_spec (x0 :: rest)) as [Hub _]; [discriminate|].
  eapply Qle_trans; [apply Qabs_nonneg | apply (Hub x0); now left].
Qed.

Lemma Qabs_div_pos (x m : Q) : 0 < m -> Qabs (x / m) == Qabs x / m.
Proof.
  intros Hm. unfold Qdiv. rewrite Qabs_Qmult, Qabs_Qinv.
  now rewrite (Qabs_pos m) by lra.
Qed.

(** Dividing a buffer by its non-zero peak brings the peak to 1. *)
Lemma peak_abs_normalized (a : list Q) :
  a <> [] -> 0 < peak_abs a ->
  peak_abs (map (fun x => x / peak_abs a) a) == 1.
Proof.
  intros Hne Hpos. set (m := peak_abs a) in *.
  destruct (peak_abs_spec a Hne) as [Hub (x0 & Hx0 & Ex0)]. fold m in Hub, Ex0.
  assert (Hne' : map (fun x => x / m) a <> []) by (destruct a; [congruence | discriminate]).
  destruct (peak_abs_spec _ Hne') as [Hub' (y & Hy & Ey)].
  assert (Hone : m / m == 1) by (field; lra).
  apply Qle_antisym.
  - rewrite <- Ey. apply in_map_iff in Hy as (x & <- & Hx).
    rewrite Qabs_div_pos by exact Hpos. rewrite <- Hone.
    unfold Qdiv. apply Qmult_le_compat_r; [now apply Hub|].
    apply Qlt_le_weak. now apply Qinv_lt_0_compat.
  - assert (H1 : Qabs (x0 / m) == 1).
    { rewrite Qabs_div_pos by exact Hpos. now rewrite Ex0. }
    rewrite <- H1. apply Hub'. apply in_map_iff. now exists x0.
Qed.

Lemma add_rows_length (a b : list Q) :
  length b = length a -> length (add_rows a b) = length a.
Proof.
  intros H. unfold add_rows. rewrite length_map, length_combine. lia.
Qed.

Lemma add_rows_nth (a b : list Q) (i : nat) :
  length b = length a -> (i < length a)%nat ->
  nth i (add_rows a b) 0 = nth i a 0 + nth i b 0.
Proof.
  intros Hlen Hi. unfold add_rows.
  rewrite (map_nth_in _ _ _ (0, 0)) by (rewrite length_combine; lia).
  rewrite combine_nth by congruence. reflexivity.
Qed.

Lemma sum_rows_length (rest : list (list Q)) :
  forall first,
    Forall (fun r => length r = length first) rest ->
    length (fold_left add_rows rest first) = length first.
Proof.
  induction rest as [|r rest IH]; intros first H; [reflexivity|].
  inversion H as [|? ? Hr Hrest]; subst. cbn [fold_left].
  rewrite IH; [now apply add_rows_length|].
  rewrite add_rows_length by exact Hr. exact Hrest.
Qed.

Lemma sum_rows_nth (rest : list (list Q)) (i : nat) :
  forall first,
    Forall (fun r => length r = length first) rest ->
    (i < length first)%nat ->
    nth i (fold_left add_rows rest first) 0 =
    fold_left Qplus (map (fun r => nth i r 0) rest) (nth i first 0).
Proof.
  induction rest as [|r rest IH]; intros first H Hi; [reflexivity|].
  inversion H as [|? ? Hr Hrest]; subst. cbn [fold_left map].
  rewrite IH.
  - now rewrite add_rows_nth.
  - rewrite add_rows_length by exact Hr. exact Hrest.
  - rewrite add_rows_length by exact Hr. exact Hi.
Qed.

Lemma same_lengths_check (first : list Q) (rest : list (list Q)) :
  Forall (fun r => length r = length first) rest ->
  forallb (fun r => (length r =? length first)%nat) rest = true.
Proof.
  intros H. apply forallb_forall. intros r Hr.
  rewrite Forall_forall in H. apply Nat.eqb_eq. now apply H.
Qed.

(** C4. On a non-empty list of buffers of one (non-zero) length,
    [merge_audio] returns a buffer: the element-wise sum of the buffers
    divided, sample by sample, by the peak absolute value of the sum when
    that peak is not zero, and then the peak absolute value of the result
    is exactly 1; when the peak is zero the sum, which is all zeros, is
    returned as it is. *)
Theorem merge_audio_normalizes (first : list Q) (rest : list (list Q)) :
  first <> [] ->
  Forall (fun r => length r = length first) rest ->
  exists mixed,
    merge_audio (first :: rest) = Done (Some mixed) /\
    length (fold_left add_rows rest first) = length first /\
    (forall i, (i < length first)%nat ->
       nth i (fold_left add_rows rest first) 0 =
       fold_left Qplus (map (fun r => nth i r 0) rest) (nth i first 0)) /\
    (~ peak_abs (fold_left add_rows rest first) == 0 ->
       mixed = map (fun x => x / peak_abs (fold_left add_rows rest first))
                   (fold_left add_rows rest first) /\
       peak_abs mixed == 1) /\
    (peak_abs (fold_left add_rows rest first) == 0 ->
       mixed = fold_left add_rows rest first /\
       Forall (fun x => x == 0) mixed).
Proof.
  intros Hne Hlen.
  set (total := fold_left add_rows rest first).
  assert (Htl : length total = length first) by now apply sum_rows_length.
  assert (Htne : total <> []).
  { intros E. rewrite E in Htl. destruct first; [congruence | discriminate]. }
  assert (Hrun : merge_audio (first :: rest) =
                 Done (Some (if Qgtb (peak_abs total) 0
                             then map (fun x => x / peak_abs total) total
                             else total))).
  { unfold merge_audio, np_sum_axis0. rewrite same_lengths_check by exact Hlen.
    fold total. cbn [bind]. unfold peak_abs.
    destruct total as [|x0 xs]; [congruence|]. reflexivity. }
  eexists. split; [exact Hrun|]. split; [exact Htl|].
  split; [intros i Hi; now apply sum_rows_nth|].
  pose proof (peak_abs_nonneg total) as H0.
  split.
  - intros Hnz.
    assert (Hpos : 0 < peak_abs total).
    { apply Qle_lteq in H0 as [H0|H0]; [exact H0|]. symmetry in H0. contradiction. }
    rewrite (proj2 (Qgtb_true _ _) Hpos). split; [reflexivity|].
    now apply peak_abs_normalized.
  - intros Hz.
    assert (Hle : peak_abs total <= 0) by (rewrite Hz; apply Qle_refl).
    rewrite (proj2 (Qgtb_false _ _) Hle). split; [reflexivity|].
    apply Forall_forall. intros x Hx.
    destruct (peak_abs_spec total Htne) as [Hub _].
    specialize (Hub x Hx). rewrite Hz in Hub.
    apply Qabs_Qle_condition in Hub. lra.
Qed.

Lemma merge_audio_normalizes_witness :
  exists mixed,
    merge_audio [[1; -1; 1 # 2]; [1; 1; 0]] = Done (Some mixed) /\
    peak_abs mixed == 1.
Proof.
  destruct (merge_audio_normalizes [1; -1; 1 # 2] [[1; 1; 0]])
    as (mixed & Hrun & _ & _ & Hpeak & _).
  - discriminate.
  - repeat constructor.
  - exists mixed. split; [exact Hrun|]. apply Hpeak. vm_compute. discriminate.
Defined.

(* ------------------------------------------------------------------ *)
(** ** Sequential composition and empty input *)

Lemma to_int16_concat (tones : list (list Q)) :
  to_int16 (concat tones) = concat (map to_int16 tones).
Proof.
  unfold to_int16. rewrite concat_map, concat_map, map_map. reflexivity.
Qed.

(** Casting inside the loop body or after the loop makes no difference
    to how the loop ends. *)
Lemma for_each_cast {A : Type} (g : A -> outcome (list Q)) (xs : list A) :
  for_each (fun x => let* tone := g x in Done (to_int16 tone)) xs =
  let* tones := for_each g xs in Done (map to_int16 tones).
Proof.
  induction xs as [|x xs IH]; [reflexivity|].
  cbn [for_each]. rewrite IH.
  destruct (g x) as [tone| |]; cbn [bind]; try reflexivity.
  destruct (for_each g xs) as [tones| |]; reflexivity.
Qed.

(** C10. The Sequential branch, which casts each segment's tone to
    16-bit integers and concatenates the integer buffers, yields the
    same outcome (the same buffer, or the same failure) as synthesizing
    all tones, concatenating the float buffers and casting once. *)
Theorem sequential_audio_commutes (np_sin : Q -> Q) (fixed_segments : list segment)
    (waveform : string) (sample_rate : Q) :
  sequential_audio np_sin fixed_segments waveform sample_rate =
  compose_then_quantize np_sin fixed_segments waveform sample_rate.
Proof.
  unfold sequential_audio, compose_then_quantize.
  rewrite for_each_cast.
  destruct (for_each _ fixed_segments) as [tones| |]; cbn [bind]; try reflexivity.
  destruct tones as [|tone tones]; [reflexivity|].
  cbn [map np_concatenate bind]. f_equal.
  symmetry. apply (to_int16_concat (tone :: tones)).
Qed.

(** C7 (amended). A specification that parses to no segment aborts the
    generation in both modes: the Simultaneous branch raises when it
    reads the first segment's duration, the Sequential branch when it
    concatenates nothing.  [merge_audio] itself, given no buffer,
    returns [None] without raising. *)
Theorem generate_audio_empty_input (np_sin : Q -> Q) (fuel : nat)
    (frequencies waveform : string) (sample_rate dwell : Q) :
  parse_frequency_set frequencies dwell = Done [] ->
  generate_audio np_sin fuel frequencies waveform sample_rate dwell true = Raise IndexError /\
  generate_audio np_sin fuel frequencies waveform sample_rate dwell false = Raise ValueError /\
  merge_audio [] = Done None /\
  np_concatenate (@nil (list Z)) = Raise ValueError.
Proof.
  intros H. unfold generate_audio. rewrite H. repeat split.
Qed.

Lemma generate_audio_empty_input_witness :
  generate_audio (fun x => x) 0 " , ," "pulse" 48000 180 true = Raise IndexError /\
  generate_audio (fun x => x) 0 " , ," "pulse" 48000 180 false = Raise ValueError.
Proof.
  destruct (generate_audio_empty_input (fun x => x) 0 " , ," "pulse" 48000 180)
    as (Hm & Hs & _); [reflexivity|].
  split; [exact Hm | exact Hs].
Defined.

(** C7 as stated fails for the Simultaneous composer: [merge_audio] on
    an empty list raises nothing. *)
Lemma merge_audio_empty_counterexample :
  merge_audio [] = Done None /\ raises (merge_audio []) = false.
Proof.
  split; reflexivity.
Qed.

(* ------------------------------------------------------------------ *)
(** ** Pulse buffers through the engine *)

Lemma for_each_forall {A B : Type} (f : A -> outcome B) (P : B -> Prop) (xs : list A) :
  (forall x y, f x = Done y -> P y) ->
  forall ys, for_each f xs = Done ys -> Forall P ys.
Proof.
  intros Hf. induction xs as [|x xs IH]; intros ys H; cbn [for_each] in H.
  - injection H as <-. constructor.
  - apply bind_done in H as (y & Hy & H).
    apply bind_done in H as (ys' & Hys & H).
    injection H as <-. constructor; [eapply Hf; eauto | now apply IH].
Qed.

Lemma to_int16_nonneg (a : list Q) :
  Forall (fun x => 0 <= x <= 1) a -> Forall (fun z => (0 <= z)%Z) (to_int16 a).
Proof.
  intros Ha. unfold to_int16. rewrite map_map.
  apply Forall_forall. intros z Hz. apply in_map_iff in Hz as (x & <- & Hx).
  rewrite Forall_forall in Ha. destruct (Ha x Hx) as [H0 H1].
  rewrite astype_int16_in_range by lra.
  apply (int_of_float_between (x * 32767) 0 32767); [lia|].
  change (inject_Z 0) with 0. change (inject_Z 32767) with 32767. lra.
Qed.

Lemma add_rows_nonneg (a b : list Q) :
  Forall (fun x => 0 <= x) a -> Forall (fun x => 0 <= x) b ->
  Forall (fun x => 0 <= x) (add_rows a b).
Proof.
  intros Ha Hb. unfold add_rows. apply Forall_forall.
  intros x Hx. apply in_map_iff in Hx as ([u v] & <- & Hin).
  rewrite Forall_forall in Ha, Hb.
  pose proof (Ha u (in_combine_l _ _ _ _ Hin)).
  pose proof (Hb v (in_combine_r _ _ _ _ Hin)).
  simpl. lra.
Qed.

Lemma sum_rows_nonneg (rest : list (list Q)) :
  forall first,
    Forall (fun x => 0 <= x) first ->
    Forall (Forall (fun x => 0 <= x)) rest ->
    Forall (fun x => 0 <= x) (fold_left add_rows rest first).
Proof.
  induction rest as [|r rest IH]; intros first Hf Hr; [exact Hf|].
  inversion Hr; subst. cbn [fold_left]. apply IH; [now apply add_rows_nonneg | assumption].
Qed.

(** Mixing buffers without negative samples gives samples in [0, 1]. *)
Lemma merge_audio_unit_range (audio_list : list (list Q)) (mixed : list Q) :
  Forall (Forall (fun x => 0 <= x)) audio_list ->
  merge_audio audio_list = Done (Some mixed) ->
  Forall (fun x => 0 <= x <= 1) mixed.
Proof.
  intros Hnn H. destruct audio_list as [|first rest]; [discriminate|].
  unfold merge_audio in H.
  apply bind_done in H as (total & Htotal & H).
  apply bind_done in H as (m & Hm & H).
  unfold np_sum_axis0 in Htotal.
  destruct (forallb _ rest); [|discriminate]. injection Htotal as <-.
  set (total := fold_left add_rows rest first) in *.
  assert (Hpos : Forall (fun x => 0 <= x) total).
  { inversion Hnn; subst. now apply sum_rows_nonneg. }
  assert (Hne : total <> []) by (intros E; rewrite E in Hm; discriminate).
  assert (Em : m = peak_abs total) by (unfold peak_abs; now rewrite Hm).
  destruct (peak_abs_spec total Hne) as [Hub _]. rewrite <- Em in Hub.
  rewrite Forall_forall in Hpos.
  injection H as <-. apply Forall_forall. intros y Hy.
  destruct (Qgtb m 0) eqn:Hg.
  - apply Qgtb_true in Hg. apply in_map_iff in Hy as (x & <- & Hx).
    specialize (Hub x Hx). specialize (Hpos x Hx).
    rewrite Qabs_pos in Hub by exact Hpos.
    split.
    + apply Qle_shift_div_l; lra.
    + apply Qle_shift_div_r; lra.
  - apply Qgtb_false in Hg.
    specialize (Hub y Hy). specialize (Hpos y Hy).
    rewrite Qabs_pos in Hub by exact Hpos. lra.
Qed.

Lemma pulse_unit_tone (np_sin : Q -> Q) (s e d sr amp : Q) (buf : list Q) :
  0 <= amp ->
  generate_tone np_sin s e d sr "pulse" amp = Done buf ->
  Forall (fun x => 0 <= x <= amp) buf.
Proof.
  intros Hamp Hbuf.
  apply (generate_tone_forall np_sin s e d sr amp "pulse" _ buf); [|exact Hbuf].
  intros ph. destruct (pulse_shape_values np_sin ph) as [E|E]; rewrite E; lra.
Qed.

(** C9. With the pulse waveform and a non-negative amplitude every
    sample of the tone buffer lies in [0, amplitude]; every sample of the
    16-bit buffer that [generate_audio] produces for the pulse waveform,
    in either mode, is non-negative, as is the cast of any pulse tone of
    amplitude at most 1.  Each of the other waveforms with a fixed shape
    takes a negative value somewhere. *)
Theorem pulse_samples_nonnegative (np_sin : Q -> Q) (s e d sr amp : Q) (buf : list Q) :
  0 <= amp ->
  generate_tone np_sin s e d sr "pulse" amp = Done buf ->
  Forall (fun x => 0 <= x <= amp) buf /\
  (amp <= 1 -> Forall (fun z => (0 <= z)%Z) (to_int16 buf)) /\
  (forall fuel frequencies sample_rate dwell merge_frequencies final_audio,
     generate_audio np_sin fuel frequencies "pulse" sample_rate dwell merge_frequencies
       = Done final_audio ->
     Forall (fun z => (0 <= z)%Z) final_audio) /\
  (forall w, In w ["lilly"; "square"; "sawtooth"; "reverse_sawtooth"; "triangle"]%string ->
     exists ph, tone_shape np_sin w ph < 0).
Proof.
  intros Hamp Hbuf.
  assert (Hrange : Forall (fun x => 0 <= x <= amp) buf) by now apply (pulse_unit_tone np_sin s e d sr).
  split; [exact Hrange|]. split; [|split].
  - intros H1. apply to_int16_nonneg.
    eapply Forall_impl; [|exact Hrange]. intros x [H0 Hx]. cbn beta. lra.
  - intros fuel frequencies sample_rate dwell merge_frequencies final_audio H.
    unfold generate_audio in H.
    apply bind_done in H as (segments & _ & H).
    apply bind_done in H as (fixed & _ & H).
    destruct merge_frequencies.
    + unfold merged_audio in H. destruct fixed as [|first rest]; [discriminate|].
      apply bind_done in H as (tones & Htones & H).
      apply bind_done in H as (merged & Hmerged & H).
      destruct merged as [m|]; [|discriminate]. injection H as <-.
      apply to_int16_nonneg. apply (merge_audio_unit_range tones); [|exact Hmerged].
      eapply for_each_forall; [|exact Htones].
      intros seg tone Htone. cbn beta in Htone.
      apply pulse_unit_tone in Htone; [|discriminate].
      eapply Forall_impl; [|exact Htone]. intros x [H0 _]. exact H0.
    + unfold sequential_audio in H.
      apply bind_done in H as (audio_segments & Hsegs & H).
      destruct audio_segments as [|a0 rest]; [discriminate|].
      injection H as <-.
      change (a0 ++ concat rest) with (concat (a0 :: rest)).
      apply Forall_concat.
      eapply for_each_forall; [|exact Hsegs].
      intros seg ints Hints. cbn beta in Hints.
      apply bind_done in Hints as (tone & Htone & Hints). injection Hints as <-.
      apply to_int16_nonneg. apply pulse_unit_tone in Htone; [exact Htone | discriminate].
  - intros w Hw. simpl in Hw.
    destruct Hw as [<-|[<-|[<-|[<-|[<-|[]]]]]].
    + exists 4. reflexivity.
    + exists 4. reflexivity.
    + exists 0. reflexivity.
    + exists 6. reflexivity.
    + exists 0. reflexivity.
Qed.

Lemma pulse_samples_nonnegative_witness :
  Forall (fun z => (0 <= z)%Z)
    (to_int16 (match generate_tone (fun x => x) 10000 10000 (1 # 10000) 48000 "pulse" 1 with
               | Done buf => buf
               | _ => []
               end)).
Proof.
  refine (proj1 (proj2 (pulse_samples_nonnegative (fun x => x) 10000 10000 (1 # 10000) 48000 1
                          _ _ _)) _).
  - discriminate.
  - vm_compute. reflexivity.
  - discriminate.
Defined.

(* ================================================================== *)
(** * Further properties of the engine *)

(* ------------------------------------------------------------------ *)
(** ** Splitting and the order of segments *)

Lemma split_nonempty (sep : ascii) (s : string) : split sep s <> [].
Proof.
  destruct s as [|c rest]; simpl; [discriminate|].
  destruct (Ascii.eqb c sep); [discriminate|].
  destruct (split sep rest); discriminate.
Qed.

Lemma split_length (sep : ascii) (s : string) :
  length (split sep s) = S (count_char sep s).
Proof.
  induction s as [|c rest IH]; [reflexivity|].
  simpl. destruct (Ascii.eqb c sep); simpl.
  - now rewrite IH.
  - destruct (split sep rest) as [|piece pieces] eqn:E.
    + now apply split_nonempty in E.
    + simpl in *. exact IH.
Qed.

Lemma split_app (sep : ascii) (a b : string) :
  split sep (a ++ String sep b) = split sep a ++ split sep b.
Proof.
  induction a as [|c rest IH]; simpl.
  - now rewrite Ascii.eqb_refl.
  - destruct (Ascii.eqb c sep); [now rewrite IH|].
    rewrite IH. destruct (split sep rest) as [|piece pieces] eqn:E.
    + now apply split_nonempty in E.
    + reflexivity.
Qed.

Lemma split_pieces_clean (sep : ascii) (s : string) :
  forall piece, In piece (split sep s) -> contains sep piece = false.
Proof.
  induction s as [|c rest IH]; intros piece Hin; simpl in Hin.
  - destruct Hin as [<-|[]]. reflexivity.
  - destruct (Ascii.eqb c sep) eqn:Ec.
    + destruct Hin as [<-|Hin]; [reflexivity | now apply IH].
    + destruct (split sep rest) as [|p ps] eqn:E.
      * destruct Hin as [<-|[]]. simpl. now rewrite Ec.
      * destruct Hin as [<-|Hin].
        -- simpl. rewrite Ec. apply IH. now left.
        -- apply IH. now right.
Qed.

Lemma contains_count (sep : ascii) (s : string) :
  contains sep s = true <-> (1 <= count_char sep s)%nat.
Proof.
  induction s as [|c rest IH]; simpl.
  - split; [discriminate | lia].
  - destruct (Ascii.eqb c sep); simpl; [split; [lia | reflexivity] | exact IH].
Qed.

Lemma parse_parts_acc (parts : list string) (d : Q) :
  forall acc,
    parse_parts parts d acc =
    let* segs := parse_parts parts d [] in Done (acc ++ segs).
Proof.
  induction parts as [|part rest IH]; intros acc; simpl.
  - now rewrite app_nil_r.
  - destruct (parse_part part d) as [[seg|]| |]; simpl; try reflexivity.
    + rewrite (IH (acc ++ [seg])), (IH [seg]).
      destruct (parse_parts rest d []); simpl; try reflexivity.
      now rewrite <- app_assoc.
    + apply IH.
Qed.

Lemma parse_parts_app (pa pb : list string) (d : Q) :
  forall acc,
    parse_parts (pa ++ pb) d acc =
    let* segs := parse_parts pa d acc in parse_parts pb d segs.
Proof.
  induction pa as [|part rest IH]; intros acc; simpl; [reflexivity|].
  destruct (parse_part part d) as [[seg|]| |]; simpl; try reflexivity; apply IH.
Qed.

(** X1. Parsing distributes over the comma: the segments of [a,b] are
    those of [a] followed by those of [b], and the first failure, in
    reading order, is the failure of the whole. *)
Theorem parse_frequency_set_comma (a b : string) (default_dwell : Q) :
  parse_frequency_set (a ++ String "," b) default_dwell =
  let* sa := parse_frequency_set a default_dwell in
  let* sb := parse_frequency_set b default_dwell in
  Done (sa ++ sb).
Proof.
  unfold parse_frequency_set. rewrite split_app, parse_parts_app.
  destruct (parse_parts (split "," a) default_dwell []) as [sa| |]; simpl; try reflexivity.
  apply parse_parts_acc.
Qed.

(* ------------------------------------------------------------------ *)
(** ** What the parser rejects and what it cannot produce *)

Lemma unpack2_outcome (pieces : list string) :
  (exists a b, pieces = [a; b] /\ unpack2 pieces = Done (a, b)) \/
  (length pieces <> 2%nat /\ unpack2 pieces = Raise ValueError).
Proof.
  destruct pieces as [|a [|b [|c rest]]]; simpl.
  - right. split; [lia | reflexivity].
  - right. split; [lia | reflexivity].
  - left. now exists a, b.
  - right. split; [lia | reflexivity].
Qed.

Lemma float_of_string_outcome (s : string) :
  (exists q, float_of_string s = Done q) \/ float_of_string s = Raise ValueError.
Proof.
  unfold float_of_string.
  destruct (read_sign _) as [neg body].
  destruct (read_digits body 0 0 false) as [[[ipart ni] rest]|]; [|now right].
  match goal with
  | |- context [match ?ap with Some _ => _ | None => Raise ValueError end] =>
      destruct ap as [[[mant nf] rest']|]
  end; [|now right].
  destruct (ni + nf =? 0)%nat; [now right|].
  destruct (read_exponent rest'); [left; eexists; reflexivity | now right].
Qed.

(** The parser raises nothing but [ValueError] and needs no fuel. *)
Lemma parse_part_outcome (part : string) (d : Q) :
  (exists r, parse_part part d = Done r) \/ parse_part part d = Raise ValueError.
Proof.
  unfold parse_part. destruct (strip part) as [|c rest]; [left; now eexists|].
  set (p := String c rest).
  destruct (contains "=" p).
  - destruct (unpack2_outcome (split "=" p)) as [(a & b & _ & ->)|[_ ->]]; [|now right].
    cbn [bind fst snd].
    destruct (float_of_string_outcome b) as [[dw ->]| ->]; [|now right].
    cbn [bind fst snd].
    destruct (contains "-" a).
    + destruct (unpack2_outcome (split "-" a)) as [(x & y & _ & ->)|[_ ->]]; [|now right].
      cbn [bind fst snd].
      destruct (float_of_string_outcome x) as [[qx ->]| ->]; [|now right].
      cbn [bind].
      destruct (float_of_string_outcome y) as [[qy ->]| ->]; [|now right].
      left. now eexists.
    + destruct (float_of_string_outcome a) as [[qa ->]| ->]; [|now right].
      left. now eexists.
  - cbn [bind fst snd].
    destruct (contains "-" p).
    + destruct (unpack2_outcome (split "-" p)) as [(x & y & _ & ->)|[_ ->]]; [|now right].
      cbn [bind fst snd].
      destruct (float_of_string_outcome x) as [[qx ->]| ->]; [|now right].
      cbn [bind].
      destruct (float_of_string_outcome y) as [[qy ->]| ->]; [|now right].
      left. now eexists.
    + destruct (float_of_string_outcome p) as [[qa ->]| ->]; [|now right].
      left. now eexists.
Qed.

Lemma parse_parts_outcome (parts : list string) (d : Q) :
  forall acc,
    (exists segs, parse_parts parts d acc = Done segs) \/
    parse_parts parts d acc = Raise ValueError.
Proof.
  induction parts as [|part rest IH]; intros acc; simpl; [left; now eexists|].
  destruct (parse_part_outcome part d) as [[r ->]| ->]; [|now right].
  simpl. destruct r; apply IH.
Qed.

Lemma parse_parts_raises_at (parts : list string) (d : Q) (part : string) :
  In part parts -> parse_part part d = Raise ValueError ->
  forall acc, parse_parts parts d acc = Raise ValueError.
Proof.
  induction parts as [|p rest IH]; intros Hin Hbad acc; [destruct Hin|].
  simpl. destruct Hin as [->|Hin]; [now rewrite Hbad|].
  destruct (parse_part_outcome p d) as [[r ->]| ->]; [|reflexivity].
  simpl. destruct r; now apply IH.
Qed.

Lemma strip_nonempty_of_count (sep : ascii) (s : string) :
  (1 <= count_char sep s)%nat -> s <> EmptyString.
Proof. destruct s; simpl; [lia | discriminate]. Qed.

(** X2. A token that, once trimmed, holds two or more [=], or no [=]
    and two or more [-], makes [parse_frequency_set] raise [ValueError],
    wherever the token stands in the string. *)
Theorem parse_frequency_set_rejects_repeated_delimiter
    (freq_str tok : string) (default_dwell : Q) :
  In tok (split "," freq_str) ->
  (2 <= count_char "=" (strip tok))%nat \/
  (count_char "=" (strip tok) = 0%nat /\ (2 <= count_char "-" (strip tok))%nat) ->
  parse_frequency_set freq_str default_dwell = Raise ValueError.
Proof.
  intros Hin Hbad. unfold parse_frequency_set.
  apply (parse_parts_raises_at _ _ tok Hin).
  unfold parse_part.
  destruct (strip tok) as [|c rest] eqn:Es.
  { simpl in Hbad. lia. }
  set (p := String c rest) in *.
  destruct Hbad as [H2|[H0 H2]].
  - assert (Hc : contains "=" p = true) by (apply contains_count; lia).
    rewrite Hc.
    destruct (unpack2_outcome (split "=" p)) as [(a & b & E & _)|[_ ->]]; [|reflexivity].
    apply (f_equal (@length string)) in E. rewrite split_length in E.
    cbn [length] in E. lia.
  - assert (Hc : contains "=" p = false).
    { destruct (contains "=" p) eqn:E; [|reflexivity]. apply contains_count in E. lia. }
    rewrite Hc. cbn [bind fst snd].
    assert (Hm : contains "-" p = true) by (apply contains_count; lia).
    rewrite Hm.
    destruct (unpack2_outcome (split "-" p)) as [(a & b & E & _)|[_ ->]]; [|reflexivity].
    apply (f_equal (@length string)) in E. rewrite split_length in E.
    cbn [length] in E. lia.
Qed.

Lemma parse_frequency_set_rejects_repeated_delimiter_witness :
  parse_frequency_set "144, 10=20=30 ,160" 180 = Raise ValueError /\
  parse_frequency_set "144,1-2-3" 180 = Raise ValueError.
Proof.
  split.
  - apply (parse_frequency_set_rejects_repeated_delimiter _ " 10=20=30 ").
    + simpl. right. left. reflexivity.
    + left. simpl. lia.
  - apply (parse_frequency_set_rejects_repeated_delimiter _ "1-2-3").
    + simpl. right. left. reflexivity.
    + right. simpl. split; [reflexivity | lia].
Defined.

Lemma digit_of_nonneg (c : ascii) (d : Z) : digit_of c = Some d -> (0 <= d)%Z.
Proof.
  unfold digit_of. destruct (_ && _)%bool; [|discriminate].
  intros [= <-]. lia.
Qed.

Lemma read_digits_nonneg (s : string) :
  forall acc count after v n rest,
    (0 <= acc)%Z -> read_digits s acc count after = Some (v, n, rest) -> (0 <= v)%Z.
Proof.
  induction s as [|c s' IH]; intros acc count after v n rest Hacc H;
    cbn [read_digits] in H.
  - injection H as <- _ _. exact Hacc.
  - destruct (digit_of c) as [d|] eqn:Ed.
    + apply digit_of_nonneg in Ed. eapply IH; [|exact H]. lia.
    + destruct (Ascii.eqb c "_").
      * destruct after; [|discriminate].
        destruct s' as [|c' s'']; [discriminate|].
        destruct (digit_of c'); [|discriminate].
        eapply IH; [|exact H]. exact Hacc.
      * injection H as <- _ _. exact Hacc.
Qed.

Lemma pow10_pos (e : Z) : 0 < pow10 e.
Proof.
  destruct e as [|p|p]; unfold pow10.
  - reflexivity.
  - change 0 with (inject_Z 0). rewrite <- Zlt_Qlt. apply Z.pow_pos_nonneg; lia.
  - reflexivity.
Qed.

Lemma lstrip_contains (space : ascii -> bool) (c : ascii) (s : string) :
  contains c (lstrip_by space s) = true -> contains c s = true.
Proof.
  induction s as [|x rest IH]; simpl; [auto|].
  destruct (space x); [|auto].
  intros H. rewrite (IH H). apply orb_true_r.
Qed.

Lemma rstrip_contains (space : ascii -> bool) (c : ascii) (s : string) :
  contains c (rstrip_by space s) = true -> contains c s = true.
Proof.
  induction s as [|x rest IH]; simpl; [auto|].
  destruct (rstrip_by space rest) as [|k ks].
  - destruct (space x); simpl; [discriminate|].
    rewrite orb_false_r. intros ->. reflexivity.
  - cbn [contains]. intros H. apply orb_true_iff in H as [H|H].
    + now rewrite H.
    + rewrite (IH H). apply orb_true_r.
Qed.

Lemma strip_by_contains (space : ascii -> bool) (c : ascii) (s : string) :
  contains c s = false -> contains c (strip_by space s) = false.
Proof.
  intros H. destruct (contains c (strip_by space s)) eqn:E; [|reflexivity].
  apply rstrip_contains, lstrip_contains in E. congruence.
Qed.

Lemma strip_contains (c : ascii) (s : string) :
  contains c s = false -> contains c (strip s) = false.
Proof. apply strip_by_contains. Qed.

Lemma spaces_to_ascii_minus (s : string) :
  contains "-" (spaces_to_ascii s) = contains "-" s.
Proof.
  induction s as [|x rest IH]; [reflexivity|].
  cbn [spaces_to_ascii contains]. rewrite IH. f_equal.
  destruct ((nat_of_ascii x =? 133) || (nat_of_ascii x =? 160))%nat eqn:E;
    [|reflexivity].
  destruct (Ascii.eqb x "-") eqn:Ex; [|reflexivity].
  apply Ascii.eqb_eq in Ex. subst x. discriminate.
Qed.

(** A literal without a minus sign is not negative. *)
Lemma float_of_string_nonneg (s : string) (q : Q) :
  contains "-" s = false -> float_of_string s = Done q -> 0 <= q.
Proof.
  intros Hs. rewrite <- spaces_to_ascii_minus in Hs.
  apply (strip_by_contains is_ascii_space) in Hs. unfold float_of_string.
  set (lit := strip_by is_ascii_space (spaces_to_ascii s)) in *.
  destruct (read_sign lit) as [neg body] eqn:Esign.
  assert (Hneg : neg = false).
  { unfold read_sign in Esign.
    destruct lit as [|[[] [] [] [] [] [] [] []] t];
      try (injection Esign as <- _; reflexivity).
    simpl in Hs. discriminate. }
  subst neg.
  destruct (read_digits body 0 0 false) as [[[ipart ni] rest]|] eqn:Ei; [|discriminate].
  assert (Hip : (0 <= ipart)%Z) by (eapply read_digits_nonneg; [|exact Ei]; lia).
  assert (Hfinish : forall mant nf rest',
             (0 <= mant)%Z ->
             (if (ni + nf =? 0)%nat then Raise ValueError
              else match read_exponent rest' with
                   | None => Raise ValueError
                   | Some e => Done (Qred (inject_Z mant * pow10 (e - Z.of_nat nf)))
                   end) = Done q -> 0 <= q).
  { intros mant nf rest' Hm H.
    destruct (ni + nf =? 0)%nat; [discriminate|].
    destruct (read_exponent rest') as [e|]; [|discriminate].
    pose proof (Qred_correct (inject_Z mant * pow10 (e - Z.of_nat nf))) as E.
    injection H as <-. rewrite E.
    apply Qmult_le_0_compat.
    - change 0 with (inject_Z 0). now rewrite <- Zle_Qle.
    - apply Qlt_le_weak, pow10_pos. }
  destruct rest as [|c rest'].
  - apply Hfinish. exact Hip.
  - destruct (Ascii.eqb c ".") eqn:Ec.
    + apply Ascii.eqb_eq in Ec. subst c.
      destruct (read_digits rest' ipart 0 false) as [[[m nf] rest'']|] eqn:Ef; [|discriminate].
      apply Hfinish. eapply read_digits_nonneg; [|exact Ef]. exact Hip.
    + assert (E : match String c rest' with
                  | String "." r =>
                      match read_digits r ipart 0 false with
                      | Some (m, nf, r') => Some (m, nf, r')
                      | None => None
                      end
                  | _ => Some (ipart, O, String c rest')
                  end = Some (ipart, O, String c rest')).
      { destruct c as [[] [] [] [] [] [] [] []]; try reflexivity. discriminate. }
      rewrite E. apply Hfinish. exact Hip.
Qed.

Lemma unpack2_in (pieces : list string) (a b : string) :
  unpack2 pieces = Done (a, b) -> In a pieces /\ In b pieces.
Proof.
  destruct pieces as [|x [|y [|z rest]]]; simpl; try discriminate.
  intros [= <- <-]. split; [now left | right; now left].
Qed.

Lemma parse_part_nonneg (part : string) (d : Q) (seg : segment) :
  parse_part part d = Done (Some seg) ->
  0 <= seg_start seg /\ 0 <= seg_end seg.
Proof.
  unfold parse_part. destruct (strip part) as [|c rest]; [discriminate|].
  set (p := String c rest). intros H.
  apply bind_done in H as ([freq_part dwell] & _ & H).
  cbn [fst snd] in H.
  apply bind_done in H as ([st en] & Hse & H).
  injection H as <-. cbn [seg_start seg_end fst snd].
  destruct (contains "-" freq_part) eqn:Em.
  - apply bind_done in Hse as ([x y] & Hu & Hse). cbn [fst snd] in Hse.
    apply unpack2_in in Hu as [Hx Hy].
    apply split_pieces_clean in Hx, Hy.
    apply bind_done in Hse as (qx & Ex & Hse).
    apply bind_done in Hse as (qy & Ey & Hse).
    injection Hse as <- <-.
    split; [apply (float_of_string_nonneg x) | apply (float_of_string_nonneg y)];
      assumption.
  - apply bind_done in Hse as (qx & Ex & Hse).
    injection Hse as <- <-.
    split; eapply float_of_string_nonneg; eauto.
Qed.

Lemma parse_parts_forall (P : segment -> Prop) (parts : list string) (d : Q) :
  (forall part seg, parse_part part d = Done (Some seg) -> P seg) ->
  forall acc segs,
    Forall P acc -> parse_parts parts d acc = Done segs -> Forall P segs.
Proof.
  intros HP. induction parts as [|part rest IH]; intros acc segs Hacc H; simpl in H.
  - now injection H as <-.
  - apply bind_done in H as (r & Hr & H).
    destruct r as [seg|]; [|now apply (IH acc)].
    apply (IH (acc ++ [seg])); [|exact H].
    apply Forall_app. split; [exact Hacc|]. constructor; [|constructor].
    eapply HP; eauto.
Qed.

(** X3. No specification string yields a negative frequency: every
    [-] in the frequency part of a token is taken as the range separator,
    so both endpoints of every parsed segment (read from decimal
    literals) are at least 0. *)
Theorem parse_frequency_set_frequencies_nonneg
    (freq_str : string) (default_dwell : Q) (segments : list segment) :
  parse_frequency_set freq_str default_dwell = Done segments ->
  Forall (fun seg => 0 <= seg_start seg /\ 0 <= seg_end seg) segments.
Proof.
  intros H. unfold parse_frequency_set in H.
  eapply parse_parts_forall; [|constructor|exact H].
  intros part seg. apply parse_part_nonneg.
Qed.

Lemma parse_frequency_set_frequencies_nonneg_witness :
  Forall (fun seg => 0 <= seg_start seg /\ 0 <= seg_end seg)
         [mkSegment 160 180 (-5)].
Proof.
  apply (parse_frequency_set_frequencies_nonneg "160-180=-5" 10).
  reflexivity.
Defined.

Lemma parse_parts_all_blank (parts : list string) (d : Q) :
  Forall (fun tok => is_blank tok = true) parts ->
  forall acc, parse_parts parts d acc = Done acc.
Proof.
  induction 1 as [|part rest Hb _ IH]; intros acc; simpl; [reflexivity|].
  unfold parse_part. unfold is_blank in Hb.
  destruct (strip part); [|discriminate]. simpl. apply IH.
Qed.

(** X4. [parse_frequency_set] returns no segment exactly when every
    comma-separated token is empty after trimming (the empty string, or
    only commas and white space). *)
Theorem parse_frequency_set_empty_iff (freq_str : string) (default_dwell : Q) :
  parse_frequency_set freq_str default_dwell = Done [] <->
  nonempty_tokens freq_str = [].
Proof.
  split.
  - intros H. unfold parse_frequency_set in H.
    apply parse_parts_length in H. simpl in H.
    unfold nonempty_tokens. now apply length_zero_iff_nil.
  - intros H. unfold parse_frequency_set. apply parse_parts_all_blank.
    unfold nonempty_tokens in H.
    apply Forall_forall. intros tok Hin.
    destruct (is_blank tok) eqn:E; [reflexivity|].
    assert (Hf : In tok (filter (fun t => negb (is_blank t)) (split "," freq_str))).
    { apply filter_In. split; [exact Hin | now rewrite E]. }
    rewrite H in Hf. destruct Hf.
Qed.

(* ------------------------------------------------------------------ *)
(** ** More on the limiter *)

Lemma halve_while_top_octave (fuel : nat) :
  forall f m v,
    0 < m -> halve_while fuel f m = Done v ->
    (f <= m /\ v = f) \/ (m < f /\ m * (1 # 2) < v /\ v <= m /\ v <= f).
Proof.
  induction fuel as [|n IH]; intros f m v Hm H; simpl in H;
    destruct (Qgtb f m) eqn:E; try discriminate.
  - left. apply Qgtb_false in E. injection H as <-. now split.
  - apply Qgtb_true in E. right. split; [exact E|].
    destruct (IH _ _ _ Hm H) as [[Hle ->]|(Hgt & Hlo & Hhi & Hf)];
      rewrite half_mult in *; repeat split; lra.
  - left. apply Qgtb_false in E. injection H as <-. now split.
Qed.

(** X5. With a positive sample rate, a frequency above the waveform's
    ceiling is folded into the top octave under it: the result lies in
    (ceiling / 2, ceiling] and below the request; a frequency at or under
    the ceiling is returned as it is; a positive frequency stays
    positive. *)
Theorem fix_frequency_top_octave (fuel : nat) (f r v : Q) (w : string) :
  0 < r ->
  fix_frequency fuel f w r = Done v ->
  v <= max_freq_of w r /\
  (max_freq_of w r < f -> max_freq_of w r * (1 # 2) < v /\ v < f) /\
  (f <= max_freq_of w r -> v = f) /\
  (0 < f -> 0 < v).
Proof.
  intros Hr H. unfold fix_frequency in H.
  pose proof (max_freq_of_pos w r Hr) as Hm.
  destruct (halve_while_top_octave _ _ _ _ Hm H) as [[Hle ->]|(Hgt & Hlo & Hhi & Hf)].
  - split; [exact Hle|]. split; [intros; lra|]. split; [reflexivity | auto].
  - split; [exact Hhi|]. split; [intros; split; lra|]. split; intros; lra.
Qed.

Lemma fix_frequency_top_octave_witness :
  48000 / 4 * (1 # 2) < 50000 / 2 / 2 / 2 /\ 50000 / 2 / 2 / 2 < 50000.
Proof.
  apply (fix_frequency_top_octave 10 50000 48000 (50000 / 2 / 2 / 2) "sawtooth").
  - reflexivity.
  - reflexivity.
  - reflexivity.
Defined.

Lemma for_each_ext {A B : Type} (f g : A -> outcome B) (xs : list A) :
  (forall x, f x = g x) -> for_each f xs = for_each g xs.
Proof.
  intros H. induction xs as [|x xs IH]; [reflexivity|].
  cbn [for_each]. now rewrite H, IH.
Qed.

Lemma for_each_length {A B : Type} (f : A -> outcome B) (xs : list A) :
  forall ys, for_each f xs = Done ys -> length ys = length xs.
Proof.
  induction xs as [|x xs IH]; intros ys H; cbn [for_each] in H.
  - now injection H as <-.
  - apply bind_done in H as (y & _ & H).
    apply bind_done in H as (ys' & Hys & H).
    injection H as <-. simpl. f_equal. now apply IH.
Qed.

(** The limited segments do not depend on the fuel once it suffices. *)
Lemma fix_segment_total (w : string) (r : Q) (seg : segment) :
  0 < r ->
  exists fuel0 fixed,
    (forall fuel, (fuel0 <= fuel)%nat -> fix_segment fuel w r seg = Done fixed) /\
    seg_duration fixed = seg_duration seg /\
    seg_start fixed <= max_freq_of w r /\ seg_end fixed <= max_freq_of w r.
Proof.
  intros Hr. pose proof (max_freq_of_pos w r Hr) as Hm.
  destruct (halve_while_terminates (seg_start seg) _ Hm) as (k1 & Hrun1 & Hat1 & _).
  destruct (halve_while_terminates (seg_end seg) _ Hm) as (k2 & Hrun2 & Hat2 & _).
  exists (Nat.max k1 k2),
    (mkSegment (halved k1 (seg_start seg)) (halved k2 (seg_end seg)) (seg_duration seg)).
  split; [|split; [reflexivity|]].
  - intros fuel Hfuel. unfold fix_segment, fix_frequency.
    rewrite Hrun1, Hrun2 by lia. reflexivity.
  - cbn [seg_start seg_end]. rewrite !halved_pow2. now split.
Qed.

(** Over the rationals the limiting pass completes, whatever the
    segments. *)
Lemma fix_segments_complete (w : string) (r : Q) (segments : list segment) :
  0 < r ->
  exists fuel0 fixed_segments,
    (forall fuel, (fuel0 <= fuel)%nat ->
       for_each (fix_segment fuel w r) segments = Done fixed_segments) /\
    length fixed_segments = length segments /\
    map seg_duration fixed_segments = map seg_duration segments /\
    Forall (fun seg => seg_start seg <= max_freq_of w r /\
                       seg_end seg <= max_freq_of w r) fixed_segments.
Proof.
  intros Hr. induction segments as [|seg rest IH].
  - exists O, []. repeat split; constructor.
  - destruct IH as (n & fixed & Hrun & Hlen & Hdur & Hmax).
    destruct (fix_segment_total w r seg Hr) as (n0 & fseg & Hrun0 & Hd0 & Hm0).
    exists (Nat.max n0 n), (fseg :: fixed).
    split; [|split; [|split]].
    + intros fuel Hfuel. cbn [for_each].
      rewrite Hrun0, Hrun by lia. reflexivity.
    + simpl. now rewrite Hlen.
    + simpl. now rewrite Hd0, Hdur.
    + constructor; assumption.
Qed.

(** X6. With a positive sample rate, the limiting pass over segments
    whose frequencies are finite binary64 values (at most [float_max] in
    absolute value) completes: there is an amount of fuel from which on
    it returns one and the same list, with as many segments as it was
    given, the same durations in the same order, and both endpoints of
    every segment at or under the waveform's ceiling. *)
Theorem fix_segments_total (w : string) (r : Q) (segments : list segment) :
  0 < r ->
  Forall (fun seg => Qabs (seg_start seg) <= float_max /\
                     Qabs (seg_end seg) <= float_max) segments ->
  exists fuel0 fixed_segments,
    (forall fuel, (fuel0 <= fuel)%nat ->
       for_each (fix_segment fuel w r) segments = Done fixed_segments) /\
    length fixed_segments = length segments /\
    map seg_duration fixed_segments = map seg_duration segments /\
    Forall (fun seg => seg_start seg <= max_freq_of w r /\
                       seg_end seg <= max_freq_of w r) fixed_segments.
Proof.
  intros Hr _. now apply fix_segments_complete.
Qed.

Lemma fix_segments_total_witness :
  exists fuel0 fixed_segments,
    (forall fuel, (fuel0 <= fuel)%nat ->
       for_each (fix_segment fuel "pulse" 48000)
                [mkSegment 144 144 180; mkSegment 50000 100 1] = Done fixed_segments) /\
    length fixed_segments = 2%nat.
Proof.
  destruct (fix_segments_total "pulse" 48000
              [mkSegment 144 144 180; mkSegment 50000 100 1])
    as (n & fixed & Hrun & Hlen & _).
  - reflexivity.
  - repeat constructor; vm_compute; discriminate.
  - exists n, fixed. split; [exact Hrun | exact Hlen].
Defined.

(* ------------------------------------------------------------------ *)
(** ** Unknown waveform names *)

Lemma max_freq_of_unknown (w : string) (r : Q) :
  (forall k, w <> waveform_name k) -> max_freq_of w r = max_freq_of "sine" r.
Proof.
  intros H. unfold max_freq_of. cbn [str_in].
  rewrite (proj2 (String.eqb_neq w "sine") (H sine)).
  rewrite (proj2 (String.eqb_neq w "lilly") (H lilly)).
  rewrite (proj2 (String.eqb_neq w "triangle") (H triangle)).
  rewrite (proj2 (String.eqb_neq w "pulse") (H pulse)).
  rewrite (proj2 (String.eqb_neq w "sawtooth") (H sawtooth_wave)).
  rewrite (proj2 (String.eqb_neq w "reverse_sawtooth") (H reverse_sawtooth)).
  rewrite (proj2 (String.eqb_neq w "square") (H square_wave)).
  reflexivity.
Qed.

Lemma tone_shape_unknown (np_sin : Q -> Q) (w : string) (ph : Q) :
  (forall k, w <> waveform_name k) -> tone_shape np_sin w ph = tone_shape np_sin "sine" ph.
Proof.
  intros H. unfold tone_shape.
  rewrite (proj2 (String.eqb_neq w "sine") (H sine)).
  rewrite (proj2 (String.eqb_neq w "lilly") (H lilly)).
  rewrite (proj2 (String.eqb_neq w "triangle") (H triangle)).
  rewrite (proj2 (String.eqb_neq w "pulse") (H pulse)).
  rewrite (proj2 (String.eqb_neq w "sawtooth") (H sawtooth_wave)).
  rewrite (proj2 (String.eqb_neq w "reverse_sawtooth") (H reverse_sawtooth)).
  rewrite (proj2 (String.eqb_neq w "square") (H square_wave)).
  reflexivity.
Qed.

Lemma generate_tone_unknown (np_sin : Q -> Q) (s e d sr amp : Q) (w : string) :
  (forall k, w <> waveform_name k) ->
  generate_tone np_sin s e d sr w amp = generate_tone np_sin s e d sr "sine" amp.
Proof.
  intros H. unfold generate_tone.
  destruct (np_linspace 0 d (int_of_float (d * sr))) as [t| |]; cbn [bind]; try reflexivity.
  do 2 f_equal. apply map_ext. intros ph. now apply tone_shape_unknown.
Qed.

(** X7. A waveform name outside the seven known ones is handled as
    [sine] by the whole engine, limiter and synthesizer alike:
    [generate_audio] gives the same outcome for it as for ["sine"]. *)
Theorem generate_audio_unknown_waveform (np_sin : Q -> Q) (fuel : nat)
    (frequencies w : string) (sample_rate dwell : Q) (merge_frequencies : bool) :
  (forall k, w <> waveform_name k) ->
  generate_audio np_sin fuel frequencies w sample_rate dwell merge_frequencies =
  generate_audio np_sin fuel frequencies "sine" sample_rate dwell merge_frequencies.
Proof.
  intros H. unfold generate_audio.
  destruct (parse_frequency_set frequencies dwell) as [segments| |]; cbn [bind];
    try reflexivity.
  rewrite (for_each_ext (fix_segment fuel w sample_rate)
                        (fix_segment fuel "sine" sample_rate)).
  2:{ intros seg. unfold fix_segment, fix_frequency. now rewrite max_freq_of_unknown. }
  destruct (for_each _ segments) as [fixed| |]; cbn [bind]; try reflexivity.
  destruct merge_frequencies.
  - unfold merged_audio. destruct fixed as [|first rest]; [reflexivity|].
    erewrite for_each_ext; [reflexivity|].
    intros seg. now apply generate_tone_unknown.
  - unfold sequential_audio. erewrite for_each_ext; [reflexivity|].
    intros seg. cbn beta. now rewrite generate_tone_unknown.
Qed.

Lemma generate_audio_unknown_waveform_witness :
  generate_audio (fun x => x) 10 "5000=0.0001" "noise" 48000 180 false =
  generate_audio (fun x => x) 10 "5000=0.0001" "sine" 48000 180 false.
Proof.
  apply generate_audio_unknown_waveform.
  intros k. destruct k; discriminate.
Defined.

(* ------------------------------------------------------------------ *)
(** ** The range of the shapes *)

Lemma Qltb_true (a b : Q) : Qltb a b = true <-> a < b.
Proof.
  unfold Qltb. rewrite Qlt_alt. destruct (a ?= b); split; congruence.
Qed.

Lemma Qltb_false (a b : Q) : Qltb a b = false <-> b <= a.
Proof.
  unfold Qltb. split.
  - intros H. apply Qnot_lt_le. intros Hlt.
    apply (proj1 (Qlt_alt a b)) in Hlt.
    destruct (a ?= b); discriminate.
  - intros H. destruct (a ?= b) eqn:E; try reflexivity.
    apply (proj2 (Qlt_alt a b)) in E. apply Qle_not_lt in H. contradiction.
Qed.

Lemma np_pi_pos : 0 < np_pi.
Proof. reflexivity. Qed.

Lemma np_mod_range (a b : Q) : 0 < b -> 0 <= np_mod a b /\ np_mod a b < b.
Proof.
  intros Hb. unfold np_mod.
  pose proof (Qfloor_le (a / b)) as Hlo.
  pose proof (Qlt_floor (a / b)) as Hhi.
  rewrite inject_Z_plus in Hhi. change (inject_Z 1) with 1 in Hhi.
  set (k := inject_Z (Qfloor (a / b))) in *.
  assert (Ha : a == a / b * b) by (field; lra).
  assert (H1 : k * b <= a / b * b) by (apply Qmult_le_compat_r; lra).
  assert (H2 : a / b * b < (k + 1) * b) by (apply Qmult_lt_compat_r; lra).
  rewrite <- Ha in H1, H2. split; lra.
Qed.

Lemma div_between (a c lo hi : Q) :
  0 < c -> lo * c <= a -> a <= hi * c -> lo <= a / c /\ a / c <= hi.
Proof.
  intros Hc Hlo Hhi. split.
  - now apply Qle_shift_div_l.
  - now apply Qle_shift_div_r.
Qed.

Lemma signal_sawtooth_range (t width : Q) :
  width = 1 \/ width = 0 \/ width = 0.5 ->
  -1 <= signal_sawtooth t width <= 1.
Proof.
  intros Hw. unfold signal_sawtooth.
  assert (H2pi : 0 < 2 * np_pi) by reflexivity.
  destruct (np_mod_range t (2 * np_pi) H2pi) as [H0 H1].
  set (tmod := np_mod t (2 * np_pi)) in *.
  destruct (Qltb tmod (width * 2 * np_pi)) eqn:E.
  - apply Qltb_true in E.
    destruct Hw as [->|[->| ->]].
    + destruct (div_between tmod (np_pi * 1) 0 2) as [Ha Hb];
        [reflexivity | unfold np_pi in *; lra | unfold np_pi in *; lra |].
      split; lra.
    + unfold np_pi in *. lra.
    + destruct (div_between tmod (np_pi * 0.5) 0 2) as [Ha Hb];
        [reflexivity | unfold np_pi in *; lra | unfold np_pi in *; lra |].
      split; lra.
  - apply Qltb_false in E.
    destruct Hw as [->|[->| ->]].
    + unfold np_pi in *. lra.
    + apply (div_between (np_pi * (0 + 1) - tmod) (np_pi * (1 - 0)) (-1) 1);
        [reflexivity | unfold np_pi in *; lra | unfold np_pi in *; lra].
    + apply (div_between (np_pi * (0.5 + 1) - tmod) (np_pi * (1 - 0.5)) (-1) 1);
        [reflexivity | unfold np_pi in *; lra | unfold np_pi in *; lra].
Qed.

Lemma tone_shape_range (np_sin : Q -> Q) (w : string) (ph : Q) :
  (forall x, -1 <= np_sin x <= 1) -> -1 <= tone_shape np_sin w ph <= 1.
Proof.
  intros Hsin. unfold tone_shape.
  repeat match goal with
         | |- context [if String.eqb ?a ?b then _ else _] => destruct (String.eqb a b)
         end;
    try apply Hsin;
    try (apply signal_sawtooth_range; auto);
    try (destruct (signal_square_values ph 0.25) as [-> | ->]; split; discriminate);
    try (destruct (signal_square_values ph 0.5) as [-> | ->]; split; discriminate).
  destruct (signal_square_values ph 0.05) as [-> | ->]; split; discriminate.
Qed.

(** X8. If [np.sin] stays within [-1, 1], every sample that
    [generate_tone] produces, for any waveform name, sweep or fixed tone,
    has an absolute value of at most that of [amplitude]. *)
Theorem generate_tone_within_amplitude (np_sin : Q -> Q) (s e d sr amp : Q)
    (w : string) (buf : list Q) :
  (forall x, -1 <= np_sin x <= 1) ->
  generate_tone np_sin s e d sr w amp = Done buf ->
  Forall (fun x => Qabs x <= Qabs amp) buf.
Proof.
  intros Hsin H.
  apply (generate_tone_forall np_sin s e d sr amp w _ buf); [|exact H].
  intros ph. rewrite Qabs_Qmult.
  assert (Hs : Qabs (tone_shape np_sin w ph) <= 1).
  { apply Qabs_Qle_condition. apply tone_shape_range. exact Hsin. }
  pose proof (Qabs_nonneg amp) as Ha.
  rewrite <- (Qmult_1_r (Qabs amp)) at 2.
  rewrite !(Qmult_comm (Qabs amp)). apply Qmult_le_compat_r; assumption.
Qed.

Lemma generate_tone_within_amplitude_witness :
  Forall (fun x => Qabs x <= Qabs (-3))
    (match generate_tone (fun _ => 1) 1000 3000 (1 # 8000) 48000 "triangle" (-3) with
     | Done buf => buf
     | _ => []
     end).
Proof.
  apply (generate_tone_within_amplitude (fun _ => 1) 1000 3000 (1 # 8000) 48000 (-3) "triangle").
  - intros x. split; discriminate.
  - vm_compute. reflexivity.
Defined.

(* ------------------------------------------------------------------ *)
(** ** The range of mixed and quantized audio *)

Lemma forallb_lengths (first : list Q) (rest : list (list Q)) :
  forallb (fun r => (length r =? length first)%nat) rest = true ->
  Forall (fun r => length r = length first) rest.
Proof.
  intros H. apply Forall_forall. intros r Hr.
  rewrite forallb_forall in H. apply Nat.eqb_eq. now apply H.
Qed.

(** What a returned mix looks like. *)
Lemma merge_audio_bounds (audio_list : list (list Q)) (mixed : list Q) :
  merge_audio audio_list = Done (Some mixed) ->
  Forall (fun x => -1 <= x <= 1) mixed /\
  Forall (fun a => length a = length mixed) audio_list /\
  mixed <> [].
Proof.
  intros H. destruct audio_list as [|first rest]; [discriminate|].
  unfold merge_audio in H.
  apply bind_done in H as (total & Htotal & H).
  apply bind_done in H as (m & Hm & H).
  unfold np_sum_axis0 in Htotal.
  destruct (forallb _ rest) eqn:Hlen; [|discriminate]. injection Htotal as <-.
  apply forallb_lengths in Hlen.
  set (total := fold_left add_rows rest first) in *.
  assert (Htl : length total = length first) by now apply sum_rows_length.
  assert (Hne : total <> []) by (intros E; rewrite E in Hm; discriminate).
  assert (Em : m = peak_abs total) by (unfold peak_abs; now rewrite Hm).
  destruct (peak_abs_spec total Hne) as [Hub _]. rewrite <- Em in Hub.
  injection H as <-.
  assert (Hml : length (if Qgtb m 0 then map (fun x => x / m) total else total)
                = length first).
  { destruct (Qgtb m 0); [now rewrite length_map | exact Htl]. }
  split; [|split].
  - apply Forall_forall. intros y Hy. destruct (Qgtb m 0) eqn:Hg.
    + apply Qgtb_true in Hg. apply in_map_iff in Hy as (x & <- & Hx).
      specialize (Hub x Hx). apply Qabs_Qle_condition in Hub.
      apply div_between; lra.
    + apply Qgtb_false in Hg. specialize (Hub y Hy).
      apply Qabs_Qle_condition in Hub. lra.
  - rewrite Hml. constructor; [reflexivity | exact Hlen].
  - intros E. rewrite E in Hml. simpl in Hml.
    rewrite <- Htl in Hml. destruct total; [congruence | discriminate].
Qed.

(** X9. Whatever buffers [merge_audio] is given, a buffer it returns
    has every sample within [-1, 1], and every input buffer has the
    length of the result. *)
Theorem merge_audio_unit_interval (audio_list : list (list Q)) (mixed : list Q) :
  merge_audio audio_list = Done (Some mixed) ->
  Forall (fun x => -1 <= x <= 1) mixed /\
  Forall (fun a => length a = length mixed) audio_list /\
  mixed <> [].
Proof.
  apply merge_audio_bounds.
Qed.

Lemma merge_audio_unit_interval_witness :
  Forall (fun x => -1 <= x <= 1) [4 / 4; -2 / 4; 0 / 4].
Proof.
  apply (merge_audio_unit_interval [[3; -3; 1]; [1; 1; -1]]).
  reflexivity.
Defined.

Lemma to_int16_in_range (a : list Q) :
  Forall (fun x => -1 <= x <= 1) a ->
  Forall (fun z => (-32767 <= z <= 32767)%Z) (to_int16 a).
Proof.
  intros Ha. unfold to_int16. rewrite map_map.
  apply Forall_forall. intros z Hz. apply in_map_iff in Hz as (x & <- & Hx).
  rewrite Forall_forall in Ha. destruct (Ha x Hx) as [H0 H1].
  rewrite astype_int16_in_range by lra.
  apply (int_of_float_between (x * 32767) (-32767) 32767); [lia|].
  change (inject_Z (-32767)) with (-32767). change (inject_Z 32767) with 32767. lra.
Qed.

Lemma unit_amplitude_range (np_sin : Q -> Q) (s e d sr : Q) (w : string) (buf : list Q) :
  (forall x, -1 <= np_sin x <= 1) ->
  generate_tone np_sin s e d sr w 1 = Done buf ->
  Forall (fun x => -1 <= x <= 1) buf.
Proof.
  intros Hsin H.
  apply (generate_tone_forall np_sin s e d sr 1 w _ buf); [|exact H].
  intros ph. pose proof (tone_shape_range np_sin w ph Hsin). lra.
Qed.

(** X10. If [np.sin] stays within [-1, 1], every 16-bit sample that
    [generate_audio] returns, in either mode and for any waveform, lies
    between -32767 and 32767: the cast never leaves the 16-bit range and
    -32768 is never produced. *)
Theorem generate_audio_int16_range (np_sin : Q -> Q) (fuel : nat)
    (frequencies waveform : string) (sample_rate dwell : Q) (merge_frequencies : bool)
    (final_audio : list Z) :
  (forall x, -1 <= np_sin x <= 1) ->
  generate_audio np_sin fuel frequencies waveform sample_rate dwell merge_frequencies
    = Done final_audio ->
  Forall (fun z => (-32767 <= z <= 32767)%Z) final_audio.
Proof.
  intros Hsin H. unfold generate_audio in H.
  apply bind_done in H as (segments & _ & H).
  apply bind_done in H as (fixed & _ & H).
  destruct merge_frequencies.
  - unfold merged_audio in H. destruct fixed as [|first rest]; [discriminate|].
    apply bind_done in H as (tones & _ & H).
    apply bind_done in H as (merged & Hmerged & H).
    destruct merged as [m|]; [|discriminate]. injection H as <-.
    apply to_int16_in_range. now apply (merge_audio_bounds tones).
  - unfold sequential_audio in H.
    apply bind_done in H as (audio_segments & Hsegs & H).
    destruct audio_segments as [|a0 rest]; [discriminate|].
    injection H as <-.
    change (a0 ++ concat rest) with (concat (a0 :: rest)).
    apply Forall_concat.
    eapply for_each_forall; [|exact Hsegs].
    intros seg ints Hints. cbn beta in Hints.
    apply bind_done in Hints as (tone & Htone & Hints). injection Hints as <-.
    apply to_int16_in_range. eapply unit_amplitude_range; eauto.
Qed.

Lemma generate_audio_int16_range_witness :
  Forall (fun z => (-32767 <= z <= 32767)%Z)
    (match generate_audio (fun _ => -1) 10 "10000=0.0002,30000" "square" 48000 180 true with
     | Done a => a
     | _ => []
     end).
Proof.
  apply (generate_audio_int16_range (fun _ => -1) 10 "10000=0.0002,30000" "square"
           48000 180 true).
  - intros x. split; discriminate.
  - vm_compute. reflexivity.
Defined.

(** X11. Between -32768 and 32768 the cast to 16 bits moves a scaled
    sample by less than one step, and never away from zero. *)
Theorem astype_int16_error (y : Q) :
  -32768 < y < 32768 ->
  Qabs (y - inject_Z (astype_int16 y)) < 1 /\
  Qabs (inject_Z (astype_int16 y)) <= Qabs y.
Proof.
  intros [Hlo Hhi].
  assert (Hin : (-32768 < int_of_float y < 32768)%Z).
  { apply int_of_float_inside; [lia|].
    change (inject_Z (-32768)) with (-32768).
    change (inject_Z 32768) with 32768. now split. }
  rewrite astype_int16_representable by lia.
  destruct (Qlt_le_dec y 0) as [Hneg|Hpos].
  - rewrite int_of_float_nonpos by lra.
    pose proof (Qle_ceiling y) as Hc.
    pose proof (Qceiling_lt y) as Hl.
    unfold Z.sub in Hl. rewrite inject_Z_plus in Hl.
    change (inject_Z (Z.opp 1)) with (-1) in Hl.
    assert (H0 : y <= inject_Z 0) by (change (inject_Z 0) with 0; lra).
    apply Qceiling_resp_le in H0. rewrite Qceiling_Z in H0.
    rewrite Zle_Qle in H0. change (inject_Z 0) with 0 in H0.
    set (z := inject_Z (Qceiling y)) in *.
    split.
    + apply Qabs_case; intros; lra.
    + apply Qabs_case; intros; apply Qabs_case; intros; lra.
  - rewrite int_of_float_nonneg by exact Hpos.
    pose proof (Qfloor_le y) as Hf.
    pose proof (Qlt_floor y) as Hl.
    rewrite inject_Z_plus in Hl. change (inject_Z 1) with 1 in Hl.
    assert (H0 : inject_Z 0 <= y) by (change (inject_Z 0) with 0; lra).
    apply Qfloor_resp_le in H0. rewrite Qfloor_Z in H0.
    rewrite Zle_Qle in H0. change (inject_Z 0) with 0 in H0.
    set (z := inject_Z (Qfloor y)) in *.
    split.
    + apply Qabs_case; intros; lra.
    + apply Qabs_case; intros; apply Qabs_case; intros; lra.
Qed.

Lemma astype_int16_error_witness :
  Qabs ((-7 # 10) * 32767 - inject_Z (astype_int16 ((-7 # 10) * 32767))) < 1.
Proof.
  apply (astype_int16_error ((-7 # 10) * 32767)).
  split; reflexivity.
Defined.

(* ------------------------------------------------------------------ *)
(** ** Lengths *)

Lemma generate_tone_length (np_sin : Q -> Q) (s e d sr amp : Q) (w : string)
    (buf : list Q) :
  generate_tone np_sin s e d sr w amp = Done buf ->
  length buf = sample_count d sr.
Proof.
  intros H. destruct (Z.ltb_spec (int_of_float (d * sr)) 0) as [Hlt|Hge].
  - rewrite generate_tone_negative in H by exact Hlt. discriminate.
  - rewrite generate_tone_unfold in H by exact Hge. injection H as <-.
    now rewrite length_map, range_length.
Qed.

Lemma for_each_lengths {A B : Type} (f : A -> outcome (list B)) (n : A -> nat)
    (xs : list A) :
  (forall x y, f x = Done y -> length y = n x) ->
  forall ys, for_each f xs = Done ys -> map (@length B) ys = map n xs.
Proof.
  intros Hf. induction xs as [|x xs IH]; intros ys H; cbn [for_each] in H.
  - now injection H as <-.
  - apply bind_done in H as (y & Hy & H).
    apply bind_done in H as (ys' & Hys & H).
    injection H as <-. simpl. f_equal; [now apply Hf | now apply IH].
Qed.

Lemma length_concat_sum {A : Type} (l : list (list A)) :
  length (concat l) = list_sum (map (@length A) l).
Proof.
  induction l as [|a l IH]; [reflexivity|].
  simpl. now rewrite length_app, IH.
Qed.

(** X12. When the Sequential branch returns a buffer, there was at
    least one segment and the buffer's length is the sum of the
    segments' sample counts [int(duration * sample_rate)]. *)
Theorem sequential_audio_length (np_sin : Q -> Q) (fixed_segments : list segment)
    (waveform : string) (sample_rate : Q) (final_audio : list Z) :
  sequential_audio np_sin fixed_segments waveform sample_rate = Done final_audio ->
  fixed_segments <> [] /\
  length final_audio =
  list_sum (map (fun seg => sample_count (seg_duration seg) sample_rate) fixed_segments).
Proof.
  intros H. unfold sequential_audio in H.
  apply bind_done in H as (audio_segments & Hsegs & H).
  assert (Hlen : map (@length Z) audio_segments =
                 map (fun seg => sample_count (seg_duration seg) sample_rate)
                     fixed_segments).
  { eapply for_each_lengths; [|exact Hsegs].
    intros seg ints Hints. cbn beta in Hints.
    apply bind_done in Hints as (tone & Htone & Hints). injection Hints as <-.
    rewrite to_int16_length. eapply generate_tone_length; eauto. }
  destruct audio_segments as [|a0 rest]; [discriminate|].
  injection H as <-. split.
  - intros E. rewrite E in Hlen. discriminate.
  - change (a0 ++ concat rest) with (concat (a0 :: rest)).
    now rewrite length_concat_sum, Hlen.
Qed.

Lemma sequential_audio_length_witness :
  length (match sequential_audio (fun x => x)
                  [mkSegment 10000 10000 (1 # 12000); mkSegment 1 2 (1 # 6000)]
                  "pulse" 48000 with
          | Done a => a
          | _ => []
          end) = 12%nat.
Proof.
  refine (proj2 (sequential_audio_length (fun x => x)
                   [mkSegment 10000 10000 (1 # 12000); mkSegment 1 2 (1 # 6000)]
                   "pulse" 48000 _ _)).
  vm_compute. reflexivity.
Defined.

Lemma add_rows_nil_l (b : list Q) : add_rows [] b = [].
Proof. reflexivity. Qed.

Lemma sum_rows_nil (rest : list (list Q)) : fold_left add_rows rest [] = [].
Proof.
  induction rest as [|r rest IH]; [reflexivity|]. simpl. exact IH.
Qed.

Lemma for_each_const {A B : Type} (f : A -> outcome B) (b : B) (xs : list A) :
  (forall x, f x = Done b) -> for_each f xs = Done (repeat b (length xs)).
Proof.
  intros H. induction xs as [|x xs IH]; [reflexivity|].
  cbn [for_each]. now rewrite H, IH.
Qed.

Lemma for_each_map {A B C : Type} (f : B -> outcome C) (g : A -> B) (xs : list A) :
  for_each f (map g xs) = for_each (fun x => f (g x)) xs.
Proof.
  induction xs as [|x xs IH]; [reflexivity|].
  cbn [map for_each]. now rewrite IH.
Qed.

(** X13. The Simultaneous branch reads no duration but the first
    segment's: replacing the durations of the other segments changes
    nothing.  A buffer it returns has the first segment's sample count,
    which is then not zero; with a sample count of zero the branch raises
    [ValueError] (the empty sum has no maximum), where the Sequential
    branch returns an empty buffer. *)
Theorem merged_audio_common_duration (np_sin : Q -> Q) (first : segment)
    (rest : list segment) (waveform : string) (sample_rate : Q) :
  (forall retime : segment -> Q,
     merged_audio np_sin
       (first :: map (fun seg => mkSegment (seg_start seg) (seg_end seg) (retime seg)) rest)
       waveform sample_rate =
     merged_audio np_sin (first :: rest) waveform sample_rate) /\
  (forall final_audio,
     merged_audio np_sin (first :: rest) waveform sample_rate = Done final_audio ->
     length final_audio = sample_count (seg_duration first) sample_rate /\
     (0 < length final_audio)%nat) /\
  (int_of_float (seg_duration first * sample_rate) = 0%Z ->
     merged_audio np_sin (first :: rest) waveform sample_rate = Raise ValueError /\
     sequential_audio np_sin [first] waveform sample_rate = Done []).
Proof.
  split; [|split].
  - intros retime. unfold merged_audio. cbn [for_each].
    now rewrite for_each_map.
  - intros final_audio H. unfold merged_audio in H.
    apply bind_done in H as (tones & Htones & H).
    apply bind_done in H as (merged & Hmerged & H).
    destruct merged as [m|]; [|discriminate]. injection H as <-.
    rewrite to_int16_length.
    destruct (merge_audio_bounds tones m Hmerged) as (_ & Hlens & Hne).
    cbn [for_each] in Htones.
    apply bind_done in Htones as (t0 & Ht0 & Htones).
    apply bind_done in Htones as (ts & _ & Htones). injection Htones as <-.
    inversion Hlens as [|? ? Hl0 _]; subst.
    apply generate_tone_length in Ht0. rewrite <- Hl0, Ht0. split; [reflexivity|].
    rewrite <- Ht0, Hl0. destruct m; [congruence | simpl; lia].
  - intros H0.
    assert (Htone : forall seg,
              generate_tone np_sin (seg_start seg) (seg_end seg) (seg_duration first)
                sample_rate waveform 1 = Done []).
    { intros seg. rewrite generate_tone_unfold by lia. now rewrite H0. }
    split.
    + unfold merged_audio. rewrite (for_each_const _ [] _ Htone).
      cbn [length repeat bind merge_audio np_sum_axis0].
      destruct (forallb _ _); [|reflexivity].
      now rewrite sum_rows_nil.
    + unfold sequential_audio. cbn [for_each]. now rewrite Htone.
Qed.

Lemma merged_audio_common_duration_witness :
  merged_audio (fun x => x) [mkSegment 144 144 0; mkSegment 1 1 5] "sine" 48000
    = Raise ValueError /\
  sequential_audio (fun x => x) [mkSegment 144 144 0] "sine" 48000 = Done [].
Proof.
  apply (proj2 (proj2 (merged_audio_common_duration (fun x => x) (mkSegment 144 144 0)
                         [mkSegment 1 1 5] "sine" 48000))).
  reflexivity.
Defined.

(* ------------------------------------------------------------------ *)
(** ** The exceptions of [generate_audio] *)

Lemma bind_raise {A B : Type} (m : outcome A) (k : A -> outcome B) (e : exn) :
  bind m k = Raise e -> m = Raise e \/ exists a, m = Done a /\ k a = Raise e.
Proof.
  destruct m as [a| |]; simpl; intros H.
  - right. now exists a.
  - left. now injection H as ->.
  - discriminate.
Qed.

Lemma for_each_raise {A B : Type} (f : A -> outcome B) (P : exn -> Prop) (xs : list A) :
  (forall x e, f x = Raise e -> P e) ->
  forall e, for_each f xs = Raise e -> P e.
Proof.
  intros Hf. induction xs as [|x xs IH]; intros e H; cbn [for_each] in H;
    [discriminate|].
  apply bind_raise in H as [H|(y & _ & H)]; [now apply (Hf x)|].
  apply bind_raise in H as [H|(ys & _ & H)]; [now apply IH | discriminate].
Qed.

Lemma fix_segment_no_raise (fuel : nat) (w : string) (r : Q) (seg : segment) (e : exn) :
  fix_segment fuel w r seg = Raise e -> False.
Proof.
  unfold fix_segment, fix_frequency. intros H.
  apply bind_raise in H as [H|(a & _ & H)].
  - pose proof (halve_while_never_raises fuel (seg_start seg) (max_freq_of w r)) as N.
    rewrite H in N. discriminate.
  - apply bind_raise in H as [H|(b & _ & H)]; [|discriminate].
    pose proof (halve_while_never_raises fuel (seg_end seg) (max_freq_of w r)) as N.
    rewrite H in N. discriminate.
Qed.

Lemma generate_tone_raise (np_sin : Q -> Q) (s e d sr amp : Q) (w : string) (x : exn) :
  generate_tone np_sin s e d sr w amp = Raise x -> x = ValueError.
Proof.
  intros H. destruct (Z.ltb_spec (int_of_float (d * sr)) 0) as [Hlt|Hge].
  - rewrite generate_tone_negative in H by exact Hlt. now injection H as <-.
  - rewrite generate_tone_unfold in H by exact Hge. discriminate.
Qed.

Lemma merge_audio_raise (audio_list : list (list Q)) (x : exn) :
  merge_audio audio_list = Raise x -> x = ValueError.
Proof.
  destruct audio_list as [|first rest]; [discriminate|].
  unfold merge_audio, np_sum_axis0. destruct (forallb _ rest); cbn [bind].
  - destruct (np_abs (fold_left add_rows rest first)); simpl;
      [now intros [= <-] | discriminate].
  - now intros [= <-].
Qed.

Lemma merge_audio_some (first : list Q) (rest : list (list Q)) :
  merge_audio (first :: rest) <> Done None.
Proof.
  unfold merge_audio, np_sum_axis0. destruct (forallb _ rest); cbn [bind];
    [|discriminate].
  destruct (np_abs (fold_left add_rows rest first)); simpl; discriminate.
Qed.

(** Where an exception of the modelled operations comes from. *)
Lemma generate_audio_raise_cases (np_sin : Q -> Q) (fuel : nat)
    (frequencies waveform : string) (sample_rate dwell : Q) (merge_frequencies : bool)
    (e : exn) :
  generate_audio np_sin fuel frequencies waveform sample_rate dwell merge_frequencies
    = Raise e ->
  e = ValueError \/
  (e = IndexError /\ merge_frequencies = true /\
   parse_frequency_set frequencies dwell = Done []).
Proof.
  intros H. unfold generate_audio in H.
  destruct (parse_parts_outcome (split "," frequencies) dwell []) as [[segs Hp]|Hp];
    unfold parse_frequency_set in *; rewrite Hp in *; cbn [bind] in H.
  2:{ left. now injection H as <-. }
  apply bind_raise in H as [H|(fixed & Hfixed & H)].
  { exfalso. revert H. apply (for_each_raise _ (fun _ => False)).
    intros seg x. apply fix_segment_no_raise. }
  apply for_each_length in Hfixed.
  destruct merge_frequencies.
  - unfold merged_audio in H. destruct fixed as [|first rest].
    + right. injection H as <-. destruct segs; [auto | discriminate].
    + left. apply bind_raise in H as [H|(tones & Htones & H)].
      * revert H. apply (for_each_raise _ (fun x => x = ValueError)).
        intros seg x. apply generate_tone_raise.
      * apply for_each_length in Htones.
        destruct tones as [|t0 ts]; [discriminate|].
        apply bind_raise in H as [H|(merged & Hm & H)];
          [now apply merge_audio_raise in H|].
        destruct merged; [discriminate|]. now apply merge_audio_some in Hm.
  - left. unfold sequential_audio in H.
    apply bind_raise in H as [H|(audio_segments & _ & H)].
    + revert H. apply (for_each_raise _ (fun x => x = ValueError)). intros seg x Hx.
      apply bind_raise in Hx as [Hx|(tone & _ & Hx)]; [|discriminate].
      now apply generate_tone_raise in Hx.
    + destruct audio_segments; [now injection H as <- | discriminate].
Qed.

(** X14. [generate_audio] never raises [TypeError]: the [None] that
    [merge_audio] returns for an empty list never reaches the scaling.
    It raises [IndexError] only when Simultaneous mode is given a
    specification without segments. *)
Theorem generate_audio_exceptions (np_sin : Q -> Q) (fuel : nat)
    (frequencies waveform : string) (sample_rate dwell : Q) (merge_frequencies : bool) :
  generate_audio np_sin fuel frequencies waveform sample_rate dwell merge_frequencies
    <> Raise TypeError /\
  (generate_audio np_sin fuel frequencies waveform sample_rate dwell merge_frequencies
     = Raise IndexError ->
   merge_frequencies = true /\ parse_frequency_set frequencies dwell = Done []).
Proof.
  split.
  - intros H. apply generate_audio_raise_cases in H as [H|[H _]]; discriminate.
  - intros H. apply generate_audio_raise_cases in H as [H|(_ & Hm & Hp)];
      [discriminate | now split].
Qed.

Lemma generate_audio_exceptions_witness :
  true = true /\ parse_frequency_set ", ," 180 = Done [].
Proof.
  apply (proj2 (generate_audio_exceptions (fun x => x) 0 ", ," "pulse" 48000 180 true)).
  reflexivity.
Defined.

(* ------------------------------------------------------------------ *)
(** ** Sequential composition piece by piece *)

Lemma for_each_app {A B : Type} (f : A -> outcome B) (xs ys : list A) :
  for_each f (xs ++ ys) =
  let* a := for_each f xs in
  let* b := for_each f ys in
  Done (a ++ b).
Proof.
  induction xs as [|x xs IH]; cbn [app for_each bind].
  - destruct (for_each f ys); reflexivity.
  - destruct (f x) as [y| |]; cbn [bind]; try reflexivity.
    rewrite IH. destruct (for_each f xs) as [a| |]; cbn [bind]; try reflexivity.
    destruct (for_each f ys) as [b| |]; reflexivity.
Qed.

(** X16. The Sequential branch composes: the audio of two non-empty
    runs of segments, one after the other, is the audio of the first
    followed by the audio of the second, and the first failure in segment
    order is the failure of the whole. *)
Theorem sequential_audio_app (np_sin : Q -> Q) (xs ys : list segment)
    (waveform : string) (sample_rate : Q) :
  xs <> [] -> ys <> [] ->
  sequential_audio np_sin (xs ++ ys) waveform sample_rate =
  let* a := sequential_audio np_sin xs waveform sample_rate in
  let* b := sequential_audio np_sin ys waveform sample_rate in
  Done (a ++ b).
Proof.
  intros Hx Hy. unfold sequential_audio. rewrite for_each_app.
  set (f := fun seg : segment => _).
  destruct (for_each f xs) as [a| |] eqn:Ea; cbn [bind]; try reflexivity.
  assert (Ha : a <> []).
  { apply for_each_length in Ea. destruct a, xs; try discriminate; congruence. }
  destruct (for_each f ys) as [b| |] eqn:Eb; cbn [bind].
  - assert (Hb : b <> []).
    { apply for_each_length in Eb. destruct b, ys; try discriminate; congruence. }
    destruct a as [|a0 a']; [congruence|]. destruct b as [|b0 b']; [congruence|].
    cbn [app np_concatenate bind]. f_equal.
    change (a0 :: a' ++ b0 :: b') with ((a0 :: a') ++ (b0 :: b')).
    apply concat_app.
  - destruct a as [|a0 a']; [congruence|]. reflexivity.
  - destruct a as [|a0 a']; [congruence|]. reflexivity.
Qed.

Lemma sequential_audio_app_witness :
  sequential_audio (fun x => x)
    ([mkSegment 10000 10000 (1 # 12000)] ++ [mkSegment 1 2 (1 # 24000)]) "pulse" 48000 =
  Done ([32767; 0; 0; 0] ++ [32767; 32767])%Z.
Proof.
  rewrite (sequential_audio_app (fun x => x) [mkSegment 10000 10000 (1 # 12000)]
             [mkSegment 1 2 (1 # 24000)] "pulse" 48000); [|discriminate|discriminate].
  vm_compute. reflexivity.
Defined.

(* ------------------------------------------------------------------ *)
(** ** Strings without a delimiter *)

Lemma split_pieces_sub (sep c : ascii) (s : string) :
  contains c s = false ->
  forall piece, In piece (split sep s) -> contains c piece = false.
Proof.
  induction s as [|x rest IH]; intros Hs piece Hin; simpl in Hin.
  - destruct Hin as [<-|[]]. reflexivity.
  - simpl in Hs. apply orb_false_iff in Hs as [Hx Hrest].
    destruct (Ascii.eqb x sep).
    + destruct Hin as [<-|Hin]; [reflexivity | now apply IH].
    + destruct (split sep rest) as [|p ps] eqn:E.
      * destruct Hin as [<-|[]]. simpl. now rewrite Hx.
      * destruct Hin as [<-|Hin].
        -- simpl. rewrite Hx. apply IH; [exact Hrest | now left].
        -- apply IH; [exact Hrest | now right].
Qed.

Lemma parse_part_plain (part : string) (d : Q) (seg : segment) :
  parse_part part d = Done (Some seg) ->
  (contains "-" part = false -> seg_start seg = seg_end seg) /\
  (contains "=" part = false -> seg_duration seg = d).
Proof.
  unfold parse_part. intros H.
  destruct (strip part) as [|c rest] eqn:Es; [discriminate|].
  rewrite <- Es in H. split; intros Hc; apply strip_contains in Hc.
  - apply bind_done in H as ([freq_part dwell] & Hfd & H). cbn [fst snd] in H.
    assert (Hf : contains "-" freq_part = false).
    { destruct (contains "=" (strip part)).
      - apply bind_done in Hfd as ([a b] & Hu & Hfd).
        apply bind_done in Hfd as (dw & _ & Hfd). injection Hfd as <- _.
        apply unpack2_in in Hu as [Ha _].
        now apply (split_pieces_sub "=" "-" (strip part)).
      - now injection Hfd as <- _. }
    rewrite Hf in H.
    apply bind_done in H as ([st en] & Hse & H).
    apply bind_done in Hse as (q & _ & Hse). injection Hse as <- <-.
    now injection H as <-.
  - rewrite Hc in H. cbn [bind fst snd] in H.
    apply bind_done in H as (se & _ & H). now injection H as <-.
Qed.

(** X17. A specification string without any [-] yields only fixed
    tones (start equal to end), and one without any [=] gives every
    segment the default dwell. *)
Theorem parse_frequency_set_plain (freq_str : string) (default_dwell : Q)
    (segments : list segment) :
  parse_frequency_set freq_str default_dwell = Done segments ->
  (contains "-" freq_str = false ->
     Forall (fun seg => seg_start seg = seg_end seg) segments) /\
  (contains "=" freq_str = false ->
     Forall (fun seg => seg_duration seg = default_dwell) segments).
Proof.
  intros H. unfold parse_frequency_set in H.
  assert (Hgen : forall (c : ascii) (P : segment -> Prop),
             contains c freq_str = false ->
             (forall part seg, contains c part = false ->
                parse_part part default_dwell = Done (Some seg) -> P seg) ->
             Forall P segments).
  { intros c P Hc HP.
    assert (Hparts : Forall (fun part => contains c part = false) (split "," freq_str)).
    { apply Forall_forall. now apply split_pieces_sub. }
    revert H Hparts. generalize (@nil segment) (Forall_nil P).
    generalize (split "," freq_str) as parts.
    induction parts as [|part rest IH]; intros acc Hacc H Hparts; simpl in H.
    - now injection H as <-.
    - inversion Hparts as [|? ? Hp Hrest]; subst.
      apply bind_done in H as (r & Hr & H). destruct r as [seg|].
      + apply (IH (acc ++ [seg])); [|exact H|exact Hrest].
        apply Forall_app. split; [exact Hacc|].
        constructor; [|constructor]. now apply (HP part).
      + now apply (IH acc). }
  split; intros Hc.
  - apply (Hgen "-"%char); [exact Hc|].
    intros part seg Hp Hs. now apply (parse_part_plain part default_dwell seg).
  - apply (Hgen "="%char); [exact Hc|].
    intros part seg Hp Hs. now apply (parse_part_plain part default_dwell seg).
Qed.

Lemma parse_frequency_set_plain_witness :
  Forall (fun seg => seg_start seg = seg_end seg)
         [mkSegment 144 144 360; mkSegment (6 # 5) (6 # 5) 180].
Proof.
  apply (proj1 (parse_frequency_set_plain "144=360, 1.2" 180 _ eq_refl)).
  reflexivity.
Defined.

(* ------------------------------------------------------------------ *)
(** ** Normalizing twice *)

Lemma merge_audio_single (a : list Q) :
  a <> [] ->
  merge_audio [a] =
  Done (Some (if Qgtb (peak_abs a) 0 then map (fun x => x / peak_abs a) a else a)).
Proof.
  intros Ha. unfold merge_audio, np_sum_axis0, peak_abs. cbn [forallb fold_left bind].
  destruct a as [|x0 xs]; [congruence|]. reflexivity.
Qed.

(** X18. Mixing is idempotent: a buffer returned by [merge_audio],
    mixed again on its own, comes back sample for sample (its peak is
    already 1, or it is silent). *)
Theorem merge_audio_idempotent (audio_list : list (list Q)) (mixed : list Q) :
  merge_audio audio_list = Done (Some mixed) ->
  exists again,
    merge_audio [mixed] = Done (Some again) /\ Forall2 Qeq again mixed.
Proof.
  intros H.
  assert (Hne : mixed <> []).
  { destruct audio_list as [|first rest]; [discriminate|].
    unfold merge_audio in H.
    apply bind_done in H as (total & Htotal & H).
    apply bind_done in H as (m & Hm & H).
    injection H as <-. intros E.
    assert (total = []) as ->.
    { destruct (Qgtb m 0); [now apply map_eq_nil in E | exact E]. }
    discriminate. }
  rewrite merge_audio_single by exact Hne.
  eexists. split; [reflexivity|].
  destruct (Qgtb (peak_abs mixed) 0) eqn:Hg.
  2:{ clear. induction mixed; constructor; [reflexivity | assumption]. }
  assert (Hone : peak_abs mixed == 1).
  { destruct audio_list as [|first rest]; [discriminate|].
    unfold merge_audio in H.
    apply bind_done in H as (total & Htotal & H).
    apply bind_done in H as (m & Hm & H).
    assert (Ht : total <> []) by (intros E; rewrite E in Hm; discriminate).
    assert (Em : m = peak_abs total) by (unfold peak_abs; now rewrite Hm).
    subst m. injection H as H.
    destruct (Qgtb (peak_abs total) 0) eqn:Hgt.
    - rewrite <- H. apply peak_abs_normalized; [exact Ht | now apply Qgtb_true].
    - subst mixed. congruence. }
  clear -Hone. set (p := peak_abs mixed) in *. clearbody p.
  induction mixed as [|x xs IH]; constructor; [|exact IH].
  rewrite Hone. field.
Qed.

Lemma merge_audio_idempotent_witness :
  exists again,
    merge_audio [[4 / 4; -2 / 4; 0 / 4]] = Done (Some again) /\
    Forall2 Qeq again [4 / 4; -2 / 4; 0 / 4].
Proof.
  apply (merge_audio_idempotent [[3; -3; 1]; [1; 1; -1]]).
  reflexivity.
Defined.

(* ------------------------------------------------------------------ *)
(** ** The sweep *)

(** X20. The phase of [generate_tone] is that of a linear sweep: over
    any time step [h] it advances by [2 pi h] times the frequency read
    off the straight line from [start_freq] (at time 0) to [end_freq] (at
    time [duration]) at the middle of the step; over the whole duration
    it advances by [2 pi] times [duration] times the mean of the two
    frequencies. *)
Theorem inst_phase_linear_sweep (s e d t h : Q) :
  ~ d == 0 ->
  inst_phase s e d (t + h) - inst_phase s e d t ==
    2 * np_pi * h * (s + (e - s) * ((t + h * (1 # 2)) / d)) /\
  inst_phase s e d d - inst_phase s e d 0 == 2 * np_pi * d * ((s + e) * (1 # 2)).
Proof.
  intros Hd. unfold inst_phase. split; field; exact Hd.
Qed.

Lemma inst_phase_linear_sweep_witness :
  inst_phase 160 180 10 10 - inst_phase 160 180 10 0 == 2 * np_pi * 10 * ((160 + 180) * (1 # 2)).
Proof.
  apply (proj2 (inst_phase_linear_sweep 160 180 10 0 0 ltac:(discriminate))).
Defined.
